(** * Incoherent intermediate scattering function: nscsim/quasielastic/incoherent.py

    A shallow embedding of [intermediate_vector_set] (with its inner
    [serial_worker]), [intermediate] and [intermediate_spherical], and the
    properties of the specification proved or refuted over it.

    Arithmetic is exact: a float64 is a real number ([R]) and a complex128 a
    pair of reals.  The one floating-point effect that the model keeps is
    what numpy's true division does on a zero divisor: no exception, a
    non-finite entry (NaN or Inf).  An array entry is therefore an [fp]
    value, finite or not.  Python exceptions are the [Raises] results of the
    [outcome] type. *)

From Stdlib Require Import Reals Lra Lia ZArith List Permutation.
From Stdlib Require Import Floats.PrimFloat.
Import ListNotations.

Open Scope R_scope.

(** ** Complex numbers (complex128 under exact arithmetic) *)

Module Cplx.

Definition C : Type := (R * R)%type.

Definition Re (z : C) : R := fst z.
Definition Im (z : C) : R := snd z.

Definition RtoC (x : R) : C := (x, 0).
Definition C0 : C := (0, 0).
Definition C1 : C := (1, 0).
(** The literal [1j]. *)
Definition Cj : C := (0, 1).

Definition Cadd (a b : C) : C := (fst a + fst b, snd a + snd b).
Definition Copp (a : C) : C := (- fst a, - snd a).
Definition Cmul (a b : C) : C :=
  (fst a * fst b - snd a * snd b, fst a * snd b + snd a * fst b).
Definition Cconj (a : C) : C := (fst a, - snd a).
(** A complex number divided by a real one, componentwise. *)
Definition Cdiv_real (a : C) (d : R) : C := (fst a / d, snd a / d).
(** [np.exp] on a complex argument. *)
Definition Cexp (a : C) : C := (exp (fst a) * cos (snd a), exp (fst a) * sin (snd a)).

Definition Csum (l : list C) : C := fold_right Cadd C0 l.

End Cplx.
Import Cplx.

(** ** Python exceptions and results *)

Inductive exn : Type :=
| IndexError   (* indexing an axis of size 0 *)
| ValueError   (* numpy refusing an empty operand *)
| TypeError.   (* functools.reduce on an empty iterable without initial value *)

Inductive outcome (A : Type) : Type :=
| Returns (a : A)
| Raises (e : exn).
Arguments Returns {A} a.
Arguments Raises {A} e.

Definition bind {A B : Type} (m : outcome A) (k : A -> outcome B) : outcome B :=
  match m with
  | Returns a => k a
  | Raises e => Raises e
  end.

Notation "x <- m ;; k" := (bind m (fun x => k))
  (at level 61, m at next level, right associativity).

(** Calling [f] on every element in turn; the first exception propagates. *)
Fixpoint mapM {A B : Type} (f : A -> outcome B) (l : list A) : outcome (list B) :=
  match l with
  | [] => Returns []
  | x :: xs => y <- f x ;; ys <- mapM f xs ;; Returns (y :: ys)
  end.

(** ** Array entries that may be non-finite *)

Inductive fp (A : Type) : Type :=
| Fin (a : A)
| NonFinite.   (* NaN or +-Inf *)
Arguments Fin {A} a.
Arguments NonFinite {A}.

(** ** Elementwise operations on arrays of equal shape *)

Fixpoint zip_with {A B D : Type} (f : A -> B -> D) (l : list A) (m : list B) : list D :=
  match l, m with
  | a :: l', b :: m' => f a b :: zip_with f l' m'
  | _, _ => []
  end.

(** A 3-vector: one row of an array of shape (n, 3). *)
Definition vec3 : Type := (R * R * R)%type.

Definition dot3 (a b : vec3) : R :=
  let '(a1, a2, a3) := a in
  let '(b1, b2, b3) := b in
  a1 * b1 + a2 * b2 + a3 * b3.

(** ** The numpy functions the module calls *)

(** [np.tensordot(q, atomic_tr, axes=(1, 1))]: shape (#q, #frames), entry
    (i, t) the dot product of [q[i]] and [atomic_tr[t]]. *)
Definition np_tensordot (q atomic_tr : list vec3) : list (list R) :=
  map (fun qi => map (fun r => dot3 qi r) atomic_tr) q.

(** [np.arange(a, b)] on integers. *)
Definition np_arange (a b : Z) : list Z :=
  map (fun i => (a + Z.of_nat i)%Z) (seq 0 (Z.to_nat (b - a))).

(** Zero-padded read of a sequence at an integer position. *)
Definition pad_get (a : list C) (i : Z) : C :=
  if ((0 <=? i)%Z && (i <? Z.of_nat (length a))%Z)%bool
  then nth (Z.to_nat i) a C0 else C0.

(** [np.correlate(a, v, "full")]: entry [j] of the result is
    [c_k = sum_n a[n+k] * conj(v[n])] at lag [k = j - (len(v) - 1)], the
    sequences being zero outside their range; an empty operand is refused. *)
Definition np_correlate_full (a v : list C) : outcome (list C) :=
  match a, v with
  | [], _ | _, [] => Raises ValueError
  | _, _ =>
    let M := length v in
    Returns
      (map (fun j =>
              Csum (map (fun n =>
                           Cmul (pad_get a (Z.of_nat n + (Z.of_nat j - (Z.of_nat M - 1))))
                                (Cconj (nth n v C0)))
                        (seq 0 M)))
           (seq 0 (length a + M - 1)))
  end.

(** [np.apply_along_axis(f, 1, m)] on a 2-D array: [f] on every row; no
    row to iterate on is refused. *)
Definition np_apply_along_axis1 {A B : Type} (f : list A -> outcome (list B))
  (m : list (list A)) : outcome (list (list B)) :=
  match m with
  | [] => Raises ValueError
  | _ => mapM f m
  end.

(** [np.add] on two 2-D complex arrays of one shape, entry by entry.  The
    trajectory array is rectangular, so the per-atom arrays that reach the
    sum all have the shape (#wavevectors, #frames); on arrays of different
    shapes numpy broadcasts or raises, which this sum of lists does not
    model. *)
Definition np_add (a b : list (list C)) : list (list C) :=
  zip_with (zip_with Cadd) a b.

(** [np.sum] of a real vector. *)
Definition np_sum (l : list R) : R := fold_right Rplus 0 l.

(** True division of a complex entry by a real scalar: a zero divisor gives
    a non-finite entry and a warning, not an exception. *)
Definition np_true_divide (z : C) (d : R) : fp C :=
  if Req_dec_T d 0 then NonFinite else Fin (Cdiv_real z d).

(** [functools.reduce(f, it)] without initial value. *)
Definition functools_reduce {A : Type} (f : A -> A -> A) (l : list A) : outcome A :=
  match l with
  | [] => Raises TypeError
  | x :: xs => Returns (fold_left f xs x)
  end.

(** ** serial_worker *)

(** The lag weights of lines 56-57, for [n = len(ai[0])] frames. *)
Definition lag_weights (n : nat) : list R :=
  let w := np_arange 1 (1 + Z.of_nat n) in
  map (fun k => 1 / IZR k) (w ++ tl (rev w)).

(** The entry of the lag weights at [offset] from the center. *)
Definition weight_at_offset (n : nat) (offset : Z) : R :=
  nth (Z.to_nat (Z.of_nat n - 1 + offset)) (lag_weights n) 0.

(** [-1j * x] followed by [np.exp]: the amplitude at one (q, frame). *)
Definition amplitude (x : R) : C := Cexp (Cmul (Copp Cj) (RtoC x)).

Definition serial_worker (q : list vec3) (atomic_tr : list vec3) (atomic_s_inc : R)
  : outcome (list (list C)) :=
  let ai := map (map amplitude) (np_tensordot q atomic_tr) in
  match ai with
  | [] => Raises IndexError                      (* ai[0] *)
  | ai0 :: _ =>
    let w := lag_weights (length ai0) in
    result <- np_apply_along_axis1
                (fun x =>
                   c <- np_correlate_full x x ;;
                   Returns (zip_with (fun wi ci => Cmul (RtoC (wi * atomic_s_inc ^ 2)) ci) w c))
                ai ;;
    match result with
    | [] => Raises IndexError                    (* result[0] *)
    | r0 :: _ => Returns (map (skipn (length r0 / 2)) result)
    end
  end.

(** ** intermediate_vector_set *)

(** [pool.uimap(f, xs, ys)]: [f] on the pairs of [zip(xs, ys)], so on as
    many pairs as the shorter argument has.  The pool hands the results
    over in completion order; the model lists them in input order, and
    [reduce_perm] below shows that the order does not reach the sum. *)
Definition uimap {A B D : Type} (f : A -> B -> outcome D) (xs : list A) (ys : list B)
  : outcome (list D) :=
  mapM (fun p => f (fst p) (snd p)) (combine xs ys).

(** [n_cores] only sizes the pool and is left out, as are the [glog.info]
    calls; [try ... finally] closes the pool and lets the exception
    through. *)
Definition intermediate_vector_set (tr : list (list vec3)) (q : list vec3) (s_inc : list R)
  : outcome (list (list (fp C))) :=
  rs <- uimap (serial_worker q) tr s_inc ;;
  result <- functools_reduce np_add rs ;;
  Returns (map (map (fun z => np_true_divide z (np_sum (zip_with Rmult s_inc s_inc)))) result).

(** ** intermediate *)

Definition fp_add (a b : fp C) : fp C :=
  match a, b with
  | Fin x, Fin y => Fin (Cadd x y)
  | _, _ => NonFinite
  end.

(** Division of an entry by an element count. *)
Definition fp_div_count (a : fp C) (n : nat) : fp C :=
  match a, n with
  | Fin x, S _ => Fin (Cdiv_real x (INR n))
  | _, _ => NonFinite
  end.

(** [np.average(a, axis=axis)] of a 2-D array without weights, that is
    [a.mean(axis)]: the sum along the axis divided by the number of
    elements along it.  (An array of shape (0, n) has no list of rows that
    keeps [n]; [intermediate_vector_set] returns none.) *)
Definition np_average (a : list (list (fp C))) (axis : nat) : outcome (list (fp C)) :=
  match axis with
  | O =>
    match a with
    | [] => Returns []
    | r :: rs =>
      Returns (map (fun c => fp_div_count c (length a)) (fold_left (zip_with fp_add) rs r))
    end
  | S O =>
    Returns (map (fun r => fp_div_count (fold_left fp_add r (Fin C0)) (length r)) a)
  | _ => Raises ValueError   (* AxisError, a ValueError *)
  end.

(** The [averaging] triple: function, positional arguments after the array
    (or [None]) and keyword arguments. *)
Record averaging_policy (P K T : Type) : Type := {
  av_fun : list (list (fp C)) -> list P -> K -> outcome T;
  av_args : option (list P);
  av_kwargs : K
}.
Arguments av_fun {P K T} _.
Arguments av_args {P K T} _.
Arguments av_kwargs {P K T} _.

(** The default [(np.average, None, dict(axis=0))]: no positional argument
    can be given, the keyword argument is the axis. *)
Definition default_averaging : averaging_policy Empty_set nat (list (fp C)) :=
  {| av_fun := fun sf _ axis => np_average sf axis;
     av_args := None;
     av_kwargs := 0%nat |}.

Definition intermediate {P K T : Type} (tr : list (list vec3)) (q : list vec3)
  (s_inc : list R) (averaging : averaging_policy P K T) : outcome T :=
  sf <- intermediate_vector_set tr q s_inc ;;
  let av_args := match av_args averaging with None => [] | Some l => l end in
  av_fun averaging sf av_args (av_kwargs averaging).

(** ** intermediate_spherical *)

Definition np_real (c : fp C) : fp R :=
  match c with
  | Fin z => Fin (Re z)
  | NonFinite => NonFinite
  end.

Section Spherical.

(** The wavevector-sampling collaborator, from a magnitude to a set of
    wavevectors. *)
Variable sample : R -> list vec3.

(** Modelled from the spec: [nscsim.qvec.sphere_average] is not among the
    sources.  The specification has it a pure function from a magnitude to
    a wavevector set, called for each requested magnitude in input order. *)
Definition sphere_average (q_mod : list R) : list (list vec3) :=
  map sample q_mod.

(** [tqdm] only reports progress; [np.asarray] of the list of rows is the
    2-D array with those rows. *)
Definition intermediate_spherical (tr : list (list vec3)) (q_mod : list R) (s_inc : list R)
  : outcome (list (list (fp R))) :=
  let q_sets := sphere_average q_mod in
  mapM (fun q_set =>
          s <- intermediate tr q_set s_inc default_averaging ;;
          Returns (map np_real s))
       q_sets.

End Spherical.

(** ** The computation as the specification words it *)

Module Spec.

(** [a(q,t) = exp(-i q.r(t))], in Euler's form. *)
Definition amplitude_at (q r : vec3) : C := (cos (dot3 q r), - sin (dot3 q r)).

Definition amplitudes (q : vec3) (atomic_tr : list vec3) : list C :=
  map (amplitude_at q) atomic_tr.

(** The lags of a full linear autocorrelation of [n] samples, from
    [-(n-1)] to [n-1]. *)
Definition lags (n : nat) : list Z :=
  map (fun j => (Z.of_nat j - (Z.of_nat n - 1))%Z) (seq 0 (2 * n - 1)).

(** [corr[k] = sum_t a[t] * conj(a[t-k])], over the frames [t] for which
    [t-k] is a frame too. *)
Definition autocorr (a : list C) (k : Z) : C :=
  Csum (map (fun t =>
               let s := (Z.of_nat t - k)%Z in
               if ((0 <=? s)%Z && (s <? Z.of_nat (length a))%Z)%bool
               then Cmul (nth t a C0) (Cconj (nth (Z.to_nat s) a C0))
               else C0)
            (seq 0 (length a))).

(** Number of frame pairs [(t, t-k)] inside a trajectory of [n] frames. *)
Definition overlap_count (n : nat) (k : Z) : Z := (Z.of_nat n - Z.abs k)%Z.

Definition lag_weight (n : nat) (k : Z) : R := 1 / IZR (overlap_count n k).

(** One wavevector: weighted full autocorrelation, then the half from the
    center (lag 0, position [n-1]) to the end. *)
Definition per_wavevector (a : list C) (weight : R) : list C :=
  let n := length a in
  skipn (n - 1)
    (map (fun k => Cmul (RtoC (weight ^ 2)) (Cmul (RtoC (lag_weight n k)) (autocorr a k)))
         (lags n)).

Definition per_atom (q : list vec3) (atomic_tr : list vec3) (weight : R) : list (list C) :=
  map (fun qi => per_wavevector (amplitudes qi atomic_tr) weight) q.

(** Entry (i, t) summed over a list of per-atom arrays. *)
Definition atom_sum (rs : list (list (list C))) (i t : nat) : C :=
  Csum (map (fun r => nth t (nth i r []) C0) rs).

End Spec.

(** An array of shape (rows, cols). *)
Definition shape {A : Type} (m : list (list A)) (rows cols : nat) : Prop :=
  length m = rows /\ Forall (fun r => length r = cols) m.

(** A trajectory array of shape (#atoms, n, 3). *)
Definition frames (tr : list (list vec3)) (n : nat) : Prop :=
  Forall (fun a => length a = n) tr.

(** The per-atom arrays that reach the reduction. *)
Definition per_atom_results (tr : list (list vec3)) (q : list vec3) (s_inc : list R)
  : list (list (list C)) :=
  map (fun p => Spec.per_atom q (fst p) (snd p)) (combine tr s_inc).

(** The sum over atoms of the squared weights. *)
Definition squared_weight_sum (s_inc : list R) : R := np_sum (map (fun w => w ^ 2) s_inc).

(** Every entry of an array is non-finite. *)
Definition all_non_finite (m : list (list (fp C))) : Prop :=
  Forall (Forall (fun c => c = NonFinite)) m.

(** ** Notions for the further properties *)

(** Squared modulus. *)
Definition Cnorm2 (z : C) : R := fst z * fst z + snd z * snd z.

Definition vec3_add (a b : vec3) : vec3 :=
  let '(a1, a2, a3) := a in
  let '(b1, b2, b3) := b in
  (a1 + b1, a2 + b2, a3 + b3).

Definition vec3_opp (a : vec3) : vec3 :=
  let '(a1, a2, a3) := a in (- a1, - a2, - a3).

(** The array of shape (rows, cols) with [c] everywhere. *)
Definition constant_array (rows cols : nat) (c : C) : list (list C) :=
  repeat (repeat c cols) rows.

(** A real factor on every entry. *)
Definition array_scale (k : R) (m : list (list C)) : list (list C) :=
  map (map (Cmul (RtoC k))) m.

Definition vec3_scale (k : R) (a : vec3) : vec3 :=
  let '(a1, a2, a3) := a in (k * a1, k * a2, k * a3).

(** The trajectory of [n] frames that starts at [r0] and moves by [v] from
    each frame to the next. *)
Definition uniform_motion (r0 v : vec3) (n : nat) : list vec3 :=
  map (fun t => vec3_add r0 (vec3_scale (INR t) v)) (seq 0 n).

(** ** Proof steps used throughout *)

(** Equations between complex numbers, componentwise. *)
Ltac Ceq :=
  unfold Cadd, Cmul, Copp, Cconj, Cdiv_real, RtoC, C0, C1, Cj, Re, Im in *;
  simpl; f_equal; try ring.

(** Running the functions on given arrays, the real arithmetic left
    symbolic. *)
Ltac eval_arrays :=
  cbv -[Rplus Rmult Ropp Rminus Rdiv Rinv IZR cos sin exp PI INR Req_dec_T dot3
        amplitude Rlt Rle Rgt Rge].

(** Equations between given arrays, entry by entry. *)
Ltac array_eq :=
  unfold C1, C0;
  repeat match goal with
         | |- Returns _ = Returns _ => f_equal
         | |- _ :: _ = _ :: _ => f_equal
         | |- Fin _ = Fin _ => f_equal
         | |- (_, _) = (_, _) => f_equal
         end.

(** * Properties *)

(** ** Complex arithmetic *)

Lemma Cadd_comm (a b : C) : Cadd a b = Cadd b a.
Proof. Ceq. Qed.

Lemma Cadd_assoc (a b c : C) : Cadd a (Cadd b c) = Cadd (Cadd a b) c.
Proof. Ceq. Qed.

Lemma Cadd_0_l (a : C) : Cadd C0 a = a.
Proof. destruct a; Ceq. Qed.

Lemma Cadd_0_r (a : C) : Cadd a C0 = a.
Proof. destruct a; Ceq. Qed.

Lemma Cmul_0_l (a : C) : Cmul C0 a = C0.
Proof. Ceq. Qed.

Lemma Cmul_real_real (x y : R) (z : C) :
  Cmul (RtoC x) (Cmul (RtoC y) z) = Cmul (RtoC (y * x)) z.
Proof. Ceq. Qed.

(** [np.exp(-1j * x)] is [cos x - i sin x]. *)
Lemma amplitude_euler (x : R) : amplitude x = (cos x, - sin x).
Proof.
  unfold amplitude, Cexp, Cmul, Copp, Cj, RtoC; simpl.
  replace (- 0 * x - - (1) * 0) with 0 by ring.
  replace (- 0 * 0 + - (1) * x) with (- x) by ring.
  rewrite exp_0, cos_neg, sin_neg. f_equal; ring.
Qed.

(** A phase times its conjugate is 1. *)
Lemma unit_modulus (x : R) : Cmul (cos x, - sin x) (Cconj (cos x, - sin x)) = C1.
Proof.
  unfold Cmul, Cconj, C1; simpl. f_equal; [|ring].
  generalize (sin2_cos2 x); unfold Rsqr; intros; lra.
Qed.

Lemma Csum_app (l m : list C) : Csum (l ++ m) = Cadd (Csum l) (Csum m).
Proof.
  induction l as [|a l IH]; simpl.
  - now rewrite Cadd_0_l.
  - now rewrite IH, Cadd_assoc.
Qed.

Lemma Csum_zero {A : Type} (f : A -> C) (l : list A) :
  (forall x, In x l -> f x = C0) -> Csum (map f l) = C0.
Proof.
  induction l as [|a l IH]; intros H; simpl; [reflexivity|].
  rewrite H by now left. rewrite IH; [apply Cadd_0_l|].
  intros; apply H; now right.
Qed.

Lemma Csum_add {A : Type} (f g : A -> C) (l : list A) :
  Csum (map (fun x => Cadd (f x) (g x)) l) = Cadd (Csum (map f l)) (Csum (map g l)).
Proof.
  induction l as [|a l IH]; simpl.
  - now rewrite Cadd_0_l.
  - rewrite IH. Ceq.
Qed.

(** Exchanging two finite sums. *)
Lemma Csum_swap {A B : Type} (f : A -> B -> C) (l : list A) (m : list B) :
  Csum (map (fun x => Csum (map (fun y => f x y) m)) l) =
  Csum (map (fun y => Csum (map (fun x => f x y) l)) m).
Proof.
  induction l as [|a l IH]; simpl.
  - symmetry. now apply Csum_zero.
  - rewrite IH. now rewrite <- Csum_add.
Qed.

(** A sum over [0..n-1] of terms that vanish away from one index. *)
Lemma Csum_point (n : nat) (c : Z) (f : nat -> C) :
  Csum (map (fun t => if (Z.of_nat t =? c)%Z then f t else C0) (seq 0 n)) =
  if ((0 <=? c)%Z && (c <? Z.of_nat n)%Z)%bool then f (Z.to_nat c) else C0.
Proof.
  induction n as [|n IH].
  - simpl. destruct (0 <=? c)%Z eqn:E; simpl; [|reflexivity].
    destruct (c <? 0)%Z eqn:E'; [lia|reflexivity].
  - replace (S n) with (n + 1)%nat by lia.
    rewrite seq_app, map_app, Csum_app, IH. simpl.
    rewrite Cadd_0_r.
    destruct (Z.of_nat n =? c)%Z eqn:En.
    + apply Z.eqb_eq in En. subst c.
      rewrite Nat2Z.id.
      replace (0 <=? Z.of_nat n)%Z with true by (symmetry; apply Z.leb_le; lia).
      replace (Z.of_nat n <? Z.of_nat n)%Z with false by (symmetry; apply Z.ltb_ge; lia).
      replace (Z.of_nat n <? Z.of_nat (n + 1))%Z with true by (symmetry; apply Z.ltb_lt; lia).
      simpl. apply Cadd_0_l.
    + apply Z.eqb_neq in En. rewrite Cadd_0_r.
      destruct (0 <=? c)%Z; simpl; [|reflexivity].
      destruct (c <? Z.of_nat n)%Z eqn:E1, (c <? Z.of_nat (n + 1))%Z eqn:E2;
        try reflexivity.
      * apply Z.ltb_lt in E1. apply Z.ltb_ge in E2. lia.
      * apply Z.ltb_ge in E1. apply Z.ltb_lt in E2. lia.
Qed.

(** ** Lists and results *)

Lemma zip_with_map {A B D E : Type} (f : B -> D -> E) (g : A -> B) (h : A -> D) (l : list A) :
  zip_with f (map g l) (map h l) = map (fun x => f (g x) (h x)) l.
Proof. induction l as [|a l IH]; simpl; [reflexivity | now rewrite IH]. Qed.

Lemma zip_with_length {A B D : Type} (f : A -> B -> D) (l : list A) (m : list B) :
  length (zip_with f l m) = Nat.min (length l) (length m).
Proof.
  revert m; induction l as [|a l IH]; intros [|b m]; simpl; try reflexivity.
  now rewrite IH.
Qed.

Lemma zip_with_nth {A B D : Type} (f : A -> B -> D) (l : list A) (m : list B)
  (i : nat) (da : A) (db : B) (dd : D) :
  (i < length l)%nat -> (i < length m)%nat ->
  nth i (zip_with f l m) dd = f (nth i l da) (nth i m db).
Proof.
  revert m i; induction l as [|a l IH]; intros [|b m] [|i] Hl Hm; simpl in *;
    try lia; try reflexivity.
  apply IH; lia.
Qed.

(** A function that returns on every element makes [mapM] a [map]. *)
Lemma mapM_returns {A B : Type} (f : A -> outcome B) (g : A -> B) (l : list A) :
  (forall x, In x l -> f x = Returns (g x)) -> mapM f l = Returns (map g l).
Proof.
  induction l as [|a l IH]; intros H; simpl; [reflexivity|].
  rewrite H by now left. simpl. rewrite IH; [reflexivity|].
  intros; apply H; now right.
Qed.

Lemma nth_map_in {A B : Type} (f : A -> B) (l : list A) (i : nat) (d : B) (d' : A) :
  (i < length l)%nat -> nth i (map f l) d = f (nth i l d').
Proof.
  intros H. rewrite (nth_indep _ d (f d')) by now rewrite length_map.
  apply map_nth.
Qed.

Lemma nth_map_seq {B : Type} (f : nat -> B) (s n i : nat) (d : B) :
  (i < n)%nat -> nth i (map f (seq s n)) d = f (s + i)%nat.
Proof.
  intros H. rewrite (nth_map_in f _ i d O) by now rewrite length_seq.
  now rewrite seq_nth.
Qed.

Lemma nth_tail {A : Type} (l : list A) (i : nat) (d : A) :
  nth i (tl l) d = nth (S i) l d.
Proof. destruct l; [now destruct i | reflexivity]. Qed.

Lemma half_of_odd (n : nat) : (1 <= n)%nat -> ((2 * n - 1) / 2 = n - 1)%nat.
Proof.
  intros H. symmetry. apply (Nat.div_unique _ _ _ 1%nat); lia.
Qed.

(** ** The lag weights *)

Lemma np_arange_from_1 (n : nat) :
  np_arange 1 (1 + Z.of_nat n) = map (fun i => Z.of_nat (S i)) (seq 0 n).
Proof.
  unfold np_arange.
  replace (Z.to_nat (1 + Z.of_nat n - 1)) with n by lia.
  apply map_ext. intros; lia.
Qed.

Lemma lags_length (n : nat) : length (Spec.lags n) = (2 * n - 1)%nat.
Proof. unfold Spec.lags. now rewrite length_map, length_seq. Qed.

Lemma lags_nth (n i : nat) :
  (i < 2 * n - 1)%nat -> nth i (Spec.lags n) 0%Z = (Z.of_nat i - (Z.of_nat n - 1))%Z.
Proof.
  intros H. unfold Spec.lags. now rewrite nth_map_seq.
Qed.

(** The sequence of lines 56-57 read by position. *)
Lemma lag_weights_raw_nth (n i : nat) :
  (i < 2 * n - 1)%nat ->
  nth i (np_arange 1 (1 + Z.of_nat n) ++ tl (rev (np_arange 1 (1 + Z.of_nat n)))) 0%Z
  = Spec.overlap_count n (Z.of_nat i - (Z.of_nat n - 1)).
Proof.
  intros H. rewrite np_arange_from_1. unfold Spec.overlap_count.
  set (w := map (fun i => Z.of_nat (S i)) (seq 0 n)).
  assert (Hw : length w = n) by (unfold w; now rewrite length_map, length_seq).
  assert (Hn : forall j, (j < n)%nat -> nth j w 0%Z = Z.of_nat (S j)).
  { intros j Hj. unfold w. now rewrite nth_map_seq. }
  destruct (Nat.lt_ge_cases i n) as [Hi|Hi].
  - rewrite app_nth1 by lia. rewrite Hn by assumption. lia.
  - rewrite app_nth2 by lia. rewrite Hw.
    rewrite nth_tail. rewrite rev_nth by lia. rewrite Hw, Hn by lia. lia.
Qed.

Lemma lag_weights_raw_length (n : nat) :
  length (np_arange 1 (1 + Z.of_nat n) ++ tl (rev (np_arange 1 (1 + Z.of_nat n))))
  = (2 * n - 1)%nat.
Proof.
  rewrite length_app, length_tl, length_rev, np_arange_from_1, length_map, length_seq.
  lia.
Qed.

(** The lag weights of the code are the reciprocal overlap counts, lag by
    lag. *)
Lemma lag_weights_spec (n : nat) :
  lag_weights n = map (Spec.lag_weight n) (Spec.lags n).
Proof.
  unfold lag_weights.
  apply (nth_ext _ _ 0 0).
  - now rewrite !length_map, lag_weights_raw_length, lags_length.
  - intros i Hi.
    rewrite length_map, lag_weights_raw_length in Hi.
    rewrite (nth_map_in _ _ i 0 0%Z) by now rewrite lag_weights_raw_length.
    rewrite lag_weights_raw_nth by assumption.
    rewrite (nth_map_in _ _ i 0 0%Z) by now rewrite lags_length.
    rewrite lags_nth by assumption.
    reflexivity.
Qed.

Lemma lag_weights_length (n : nat) : length (lag_weights n) = (2 * n - 1)%nat.
Proof. now rewrite lag_weights_spec, length_map, lags_length. Qed.

Lemma weight_at_offset_spec (n : nat) (k : Z) :
  (Z.abs k < Z.of_nat n)%Z ->
  weight_at_offset n k = 1 / IZR (Z.of_nat n - Z.abs k).
Proof.
  intros H. unfold weight_at_offset. rewrite lag_weights_spec.
  rewrite (nth_map_in _ _ _ 0 0%Z) by (rewrite lags_length; lia).
  rewrite lags_nth by lia.
  unfold Spec.lag_weight, Spec.overlap_count. do 3 f_equal. lia.
Qed.

Lemma lags_bound (n : nat) (k : Z) : In k (Spec.lags n) -> (Z.abs k < Z.of_nat n)%Z.
Proof.
  unfold Spec.lags. rewrite in_map_iff. intros [j [<- Hj]].
  apply in_seq in Hj. lia.
Qed.

Lemma lag_weights_positive (n : nat) : Forall (fun x => 0 < x) (lag_weights n).
Proof.
  rewrite lag_weights_spec. apply Forall_forall. intros x Hx.
  apply in_map_iff in Hx. destruct Hx as [k [<- Hk]].
  apply lags_bound in Hk.
  unfold Spec.lag_weight, Spec.overlap_count.
  apply Rdiv_lt_0_compat; [lra|]. apply IZR_lt. lia.
Qed.

(** C4.  For [n >= 1] frames the lag weights built by [serial_worker] have
    length [2n - 1], are symmetric about the center, are strictly positive,
    and the entry at offset [k] from the center is [1 / (n - |k|)]. *)
Theorem lag_weights_invariant (n : nat) :
  (1 <= n)%nat ->
  length (lag_weights n) = (2 * n - 1)%nat
  /\ (forall k : Z, (Z.abs k < Z.of_nat n)%Z ->
        weight_at_offset n (- k) = weight_at_offset n k)
  /\ Forall (fun x => 0 < x) (lag_weights n)
  /\ (forall k : Z, (Z.abs k < Z.of_nat n)%Z ->
        weight_at_offset n k = 1 / IZR (Z.of_nat n - Z.abs k)).
Proof.
  intros _. split; [apply lag_weights_length|]. split; [|split].
  - intros k Hk.
    rewrite !weight_at_offset_spec by (rewrite ?Z.abs_opp; assumption).
    now rewrite Z.abs_opp.
  - apply lag_weights_positive.
  - apply weight_at_offset_spec.
Qed.

Lemma lag_weights_invariant_witness :
  (1 <= 3)%nat
  /\ length (lag_weights 3) = 5%nat
  /\ weight_at_offset 3 (-2) = weight_at_offset 3 2
  /\ weight_at_offset 3 2 = 1 / IZR (3 - 2).
Proof.
  split; [lia|].
  destruct (lag_weights_invariant 3 ltac:(lia)) as [Hlen [Hsym [_ Hval]]].
  split; [exact Hlen|]. split.
  - apply (Hsym 2%Z). simpl; lia.
  - apply (Hval 2%Z). simpl; lia.
Defined.

(** ** serial_worker against the specification's wording *)

(** numpy's lag-[k] correlation sum, indexed by the conjugated factor, is
    the specification's sum indexed by the other factor. *)
Lemma correlate_reindex (a : list C) (k : Z) :
  Csum (map (fun n => Cmul (pad_get a (Z.of_nat n + k)) (Cconj (nth n a C0)))
            (seq 0 (length a)))
  = Spec.autocorr a k.
Proof.
  unfold Spec.autocorr.
  transitivity
    (Csum (map (fun n =>
                  Csum (map (fun t =>
                               if (Z.of_nat t =? Z.of_nat n + k)%Z
                               then Cmul (nth t a C0) (Cconj (nth n a C0)) else C0)
                            (seq 0 (length a))))
               (seq 0 (length a)))).
  - f_equal. apply map_ext. intros n.
    rewrite (Csum_point _ _ (fun t => Cmul (nth t a C0) (Cconj (nth n a C0)))).
    unfold pad_get.
    destruct ((0 <=? Z.of_nat n + k)%Z && (Z.of_nat n + k <? Z.of_nat (length a))%Z)%bool;
      [reflexivity | now rewrite Cmul_0_l].
  - rewrite (Csum_swap
               (fun n t => if (Z.of_nat t =? Z.of_nat n + k)%Z
                           then Cmul (nth t a C0) (Cconj (nth n a C0)) else C0)).
    f_equal. apply map_ext. intros t. cbv zeta.
    rewrite <- (Csum_point (length a) (Z.of_nat t - k)
                  (fun n => Cmul (nth t a C0) (Cconj (nth n a C0)))).
    f_equal. apply map_ext. intros n.
    destruct (Z.of_nat t =? Z.of_nat n + k)%Z eqn:E1,
             (Z.of_nat n =? Z.of_nat t - k)%Z eqn:E2; try reflexivity.
    + apply Z.eqb_eq in E1. apply Z.eqb_neq in E2. lia.
    + apply Z.eqb_neq in E1. apply Z.eqb_eq in E2. lia.
Qed.

Lemma np_correlate_full_auto (a : list C) :
  a <> [] ->
  np_correlate_full a a = Returns (map (Spec.autocorr a) (Spec.lags (length a))).
Proof.
  intros Ha. unfold np_correlate_full.
  destruct a as [|a0 a']; [congruence|].
  set (a := a0 :: a'). f_equal.
  unfold Spec.lags. rewrite map_map.
  replace (length a + length a - 1)%nat with (2 * length a - 1)%nat by lia.
  apply map_ext. intros j. apply correlate_reindex.
Qed.

(** What [serial_worker] computes on one row of amplitudes. *)
Lemma weighted_row (x : list C) (s : R) (n : nat) :
  x <> [] -> length x = n ->
  (c <- np_correlate_full x x ;;
   Returns (zip_with (fun wi ci => Cmul (RtoC (wi * s ^ 2)) ci) (lag_weights n) c))
  = Returns
      (map (fun k => Cmul (RtoC (s ^ 2)) (Cmul (RtoC (Spec.lag_weight n k))
                                               (Spec.autocorr x k)))
           (Spec.lags n)).
Proof.
  intros Hx <-. rewrite np_correlate_full_auto by assumption. simpl.
  rewrite lag_weights_spec, zip_with_map. f_equal.
  apply map_ext. intros k. now rewrite Cmul_real_real.
Qed.

Lemma amplitudes_row (qi : vec3) (atomic_tr : list vec3) :
  map amplitude (map (fun r => dot3 qi r) atomic_tr) = Spec.amplitudes qi atomic_tr.
Proof.
  unfold Spec.amplitudes. rewrite map_map. apply map_ext.
  intros r. apply amplitude_euler.
Qed.

(** [serial_worker] on a non-empty wavevector set and a trajectory of at
    least one frame returns the array the specification describes. *)
Lemma serial_worker_returns (q atomic_tr : list vec3) (s : R) :
  q <> [] -> atomic_tr <> [] ->
  serial_worker q atomic_tr s = Returns (Spec.per_atom q atomic_tr s).
Proof.
  intros Hq Htr. unfold serial_worker, np_tensordot.
  rewrite map_map.
  destruct q as [|q0 q']; [congruence|].
  set (q := q0 :: q').
  set (n := length atomic_tr).
  assert (Hn : (1 <= n)%nat) by (unfold n; destruct atomic_tr; [congruence | simpl; lia]).
  assert (Hlen : forall qi, length (Spec.amplitudes qi atomic_tr) = n)
    by (intros; unfold Spec.amplitudes; now rewrite length_map).
  assert (Hne : forall qi, Spec.amplitudes qi atomic_tr <> []).
  { intros qi E. specialize (Hlen qi). rewrite E in Hlen. simpl in Hlen. lia. }
  rewrite (map_ext _ (fun qi => Spec.amplitudes qi atomic_tr))
    by (intros; apply amplitudes_row).
  unfold q at 1. cbn [map]. fold q. rewrite Hlen.
  change (Spec.amplitudes q0 atomic_tr :: map (fun qi => Spec.amplitudes qi atomic_tr) q')
    with (map (fun qi => Spec.amplitudes qi atomic_tr) q).
  unfold np_apply_along_axis1.
  rewrite (mapM_returns _
             (fun x => map (fun k => Cmul (RtoC (s ^ 2))
                                       (Cmul (RtoC (Spec.lag_weight n k)) (Spec.autocorr x k)))
                           (Spec.lags n))).
  2:{ intros x Hx. apply in_map_iff in Hx. destruct Hx as [qi [<- _]].
      apply weighted_row; [apply Hne | apply Hlen]. }
  rewrite map_map. unfold q, Spec.per_atom. cbn [map bind].
  rewrite length_map, lags_length, half_of_odd by assumption.
  rewrite map_map. f_equal. f_equal.
  - unfold Spec.per_wavevector. now rewrite Hlen.
  - apply map_ext. intros qi. unfold Spec.per_wavevector. now rewrite Hlen.
Qed.

Lemma per_wavevector_length (a : list C) (w : R) :
  a <> [] -> length (Spec.per_wavevector a w) = length a.
Proof.
  intros Ha. unfold Spec.per_wavevector.
  rewrite length_skipn, length_map, lags_length.
  destruct a; [congruence | simpl; lia].
Qed.

Lemma per_atom_shape (q atomic_tr : list vec3) (w : R) :
  atomic_tr <> [] ->
  shape (Spec.per_atom q atomic_tr w) (length q) (length atomic_tr).
Proof.
  intros Htr. unfold shape, Spec.per_atom. split; [apply length_map|].
  apply Forall_forall. intros r Hr. apply in_map_iff in Hr.
  destruct Hr as [qi [<- _]].
  rewrite per_wavevector_length; unfold Spec.amplitudes.
  - apply length_map.
  - destruct atomic_tr; [congruence | discriminate].
Qed.

(** The entry at non-negative lag [k], in closed form. *)
Lemma per_wavevector_nth (a : list C) (w : R) (k : nat) :
  (k < length a)%nat ->
  nth k (Spec.per_wavevector a w) C0
  = Cmul (RtoC (w ^ 2))
         (Cmul (RtoC (1 / IZR (Z.of_nat (length a) - Z.of_nat k)))
               (Spec.autocorr a (Z.of_nat k))).
Proof.
  intros Hk. unfold Spec.per_wavevector.
  rewrite nth_skipn.
  rewrite (nth_map_in _ _ _ C0 0%Z) by (rewrite lags_length; lia).
  rewrite lags_nth by lia.
  replace (Z.of_nat (length a - 1 + k) - (Z.of_nat (length a) - 1))%Z
    with (Z.of_nat k) by lia.
  unfold Spec.lag_weight, Spec.overlap_count.
  now rewrite Z.abs_eq by lia.
Qed.

(** C1.  On a non-empty wavevector set and a trajectory of at least one
    frame, [serial_worker] returns, for each wavevector, the weighted full
    linear autocorrelation of the amplitudes [exp(-i q.r(t))] cut to its
    non-negative lags; the array has shape (#wavevectors, #frames). *)
Theorem serial_worker_spec (q atomic_tr : list vec3) (weight : R) :
  (1 <= length q)%nat -> (1 <= length atomic_tr)%nat ->
  serial_worker q atomic_tr weight = Returns (Spec.per_atom q atomic_tr weight)
  /\ shape (Spec.per_atom q atomic_tr weight) (length q) (length atomic_tr).
Proof.
  intros Hq Htr.
  assert (q <> []) by (destruct q; [simpl in Hq; lia | discriminate]).
  assert (atomic_tr <> []) by (destruct atomic_tr; [simpl in Htr; lia | discriminate]).
  split; [now apply serial_worker_returns | now apply per_atom_shape].
Qed.

Lemma serial_worker_spec_witness :
  let q := [(0, 0, 1); (1, 0, 0)] in
  let atomic_tr := [(0, 0, 0); (1, 0, 0); (2, 0, 0)] in
  (1 <= length q)%nat /\ (1 <= length atomic_tr)%nat
  /\ serial_worker q atomic_tr 2 = Returns (Spec.per_atom q atomic_tr 2)
  /\ shape (Spec.per_atom q atomic_tr 2) 2 3.
Proof.
  intros q atomic_tr.
  split; [simpl; lia|]. split; [simpl; lia|].
  apply (serial_worker_spec q atomic_tr 2); simpl; lia.
Defined.

(** ** Degenerate shapes *)

Lemma serial_worker_no_wavevector (atomic_tr : list vec3) (s : R) :
  serial_worker [] atomic_tr s = Raises IndexError.
Proof. reflexivity. Qed.

Lemma serial_worker_no_frame (q : list vec3) (s : R) :
  q <> [] -> serial_worker q [] s = Raises ValueError.
Proof. destruct q; [congruence | reflexivity]. Qed.

(** ** Lag 0 *)

Lemma Csum_ones {A : Type} (f : A -> C) (l : list A) :
  (forall x, In x l -> f x = C1) -> Csum (map f l) = RtoC (INR (length l)).
Proof.
  induction l as [|a l IH]; intros H.
  - reflexivity.
  - cbn [map Csum fold_right]. fold (Csum (map f l)).
    rewrite H by now left. rewrite IH by (intros; apply H; now right).
    cbn [length]. rewrite S_INR. Ceq.
Qed.

Lemma autocorr_lag0 (qi : vec3) (atomic_tr : list vec3) :
  Spec.autocorr (Spec.amplitudes qi atomic_tr) 0 = RtoC (INR (length atomic_tr)).
Proof.
  unfold Spec.autocorr, Spec.amplitudes. rewrite length_map.
  rewrite Csum_ones; [now rewrite length_seq|].
  intros t Ht. apply in_seq in Ht. cbv zeta.
  replace (Z.of_nat t - 0)%Z with (Z.of_nat t) by lia.
  replace ((0 <=? Z.of_nat t)%Z && (Z.of_nat t <? Z.of_nat (length atomic_tr))%Z)%bool
    with true by (symmetry; apply andb_true_intro; split;
                  [apply Z.leb_le | apply Z.ltb_lt]; lia).
  rewrite Nat2Z.id.
  rewrite (nth_map_in _ _ _ C0 (0, 0, 0)) by apply Ht.
  unfold Spec.amplitude_at. apply unit_modulus.
Qed.

(** The per-atom result at lag 0 is the squared weight. *)
Lemma per_atom_lag0 (q atomic_tr : list vec3) (w : R) (i : nat) :
  atomic_tr <> [] -> (i < length q)%nat ->
  nth 0 (nth i (Spec.per_atom q atomic_tr w) []) C0 = RtoC (w ^ 2).
Proof.
  intros Htr Hi. unfold Spec.per_atom.
  rewrite (nth_map_in _ _ _ [] (0, 0, 0)) by assumption.
  assert (Hn : (0 < length atomic_tr)%nat)
    by (destruct atomic_tr; [congruence | simpl; lia]).
  rewrite per_wavevector_nth by (unfold Spec.amplitudes; now rewrite length_map).
  rewrite autocorr_lag0. unfold Spec.amplitudes. rewrite length_map.
  rewrite INR_IZR_INZ. simpl (Z.of_nat 0). rewrite Z.sub_0_r.
  assert (IZR (Z.of_nat (length atomic_tr)) <> 0).
  { apply not_0_IZR. lia. }
  unfold Cmul, RtoC; simpl. f_equal; field; assumption.
Qed.

(** ** The reduction over atoms *)

Lemma zip_with_comm {A : Type} (f : A -> A -> A) (l m : list A) :
  (forall a b, f a b = f b a) -> zip_with f l m = zip_with f m l.
Proof.
  intros Hf. revert m; induction l as [|a l IH]; intros [|b m]; simpl; try reflexivity.
  now rewrite Hf, IH.
Qed.

Lemma zip_with_assoc {A : Type} (f : A -> A -> A) (l m k : list A) :
  (forall a b c, f a (f b c) = f (f a b) c) ->
  zip_with f l (zip_with f m k) = zip_with f (zip_with f l m) k.
Proof.
  intros Hf. revert m k; induction l as [|a l IH]; intros [|b m] [|c k]; simpl;
    try reflexivity.
  now rewrite Hf, IH.
Qed.

Lemma np_add_comm (a b : list (list C)) : np_add a b = np_add b a.
Proof.
  apply zip_with_comm. intros; apply zip_with_comm. apply Cadd_comm.
Qed.

Lemma np_add_assoc (a b c : list (list C)) : np_add a (np_add b c) = np_add (np_add a b) c.
Proof.
  apply zip_with_assoc. intros; apply zip_with_assoc. apply Cadd_assoc.
Qed.

Section Reduce.

Context {A : Type} (f : A -> A -> A).
Hypothesis f_comm : forall a b, f a b = f b a.
Hypothesis f_assoc : forall a b c, f a (f b c) = f (f a b) c.

Lemma fold_left_perm (l l' : list A) :
  Permutation l l' -> forall x, fold_left f l x = fold_left f l' x.
Proof.
  induction 1 as [|a l l' _ IH|a b l|l l' l'' _ IH1 _ IH2]; intros x; simpl.
  - reflexivity.
  - apply IH.
  - f_equal. rewrite <- !f_assoc. f_equal. apply f_comm.
  - now rewrite IH1.
Qed.

(** The order in which the results reach [functools.reduce] does not
    change what it returns. *)
Lemma reduce_perm (l l' : list A) :
  Permutation l l' -> functools_reduce f l = functools_reduce f l'.
Proof.
  induction 1 as [|a l l' Hp _|a b l|l l' l'' _ IH1 _ IH2]; simpl.
  - reflexivity.
  - f_equal. now apply fold_left_perm.
  - f_equal. f_equal. apply f_comm.
  - now rewrite IH1.
Qed.

End Reduce.

Lemma np_add_shape (a b : list (list C)) (rows cols : nat) :
  shape a rows cols -> shape b rows cols -> shape (np_add a b) rows cols.
Proof.
  unfold shape, np_add. intros [La Fa] [Lb Fb]. split.
  - rewrite zip_with_length, La, Lb. apply Nat.min_id.
  - clear La Lb. revert b Fb. induction Fa as [|x a Hx Fa IH]; intros b Fb.
    + constructor.
    + destruct Fb as [|y b Hy Fb]; simpl; constructor.
      * rewrite zip_with_length, Hx, Hy. apply Nat.min_id.
      * now apply IH.
Qed.

Lemma np_add_nth (a b : list (list C)) (rows cols i t : nat) :
  shape a rows cols -> shape b rows cols -> (i < rows)%nat -> (t < cols)%nat ->
  nth t (nth i (np_add a b) []) C0
  = Cadd (nth t (nth i a []) C0) (nth t (nth i b []) C0).
Proof.
  intros [La Fa] [Lb Fb] Hi Ht. unfold np_add.
  rewrite (zip_with_nth _ a b i [] [] []) by lia.
  apply zip_with_nth.
  - rewrite Forall_forall in Fa. rewrite (Fa (nth i a [])); [assumption|].
    apply nth_In; lia.
  - rewrite Forall_forall in Fb. rewrite (Fb (nth i b [])); [assumption|].
    apply nth_In; lia.
Qed.

Lemma fold_np_add_shape (rs : list (list (list C))) (r : list (list C)) (rows cols : nat) :
  shape r rows cols -> Forall (fun x => shape x rows cols) rs ->
  shape (fold_left np_add rs r) rows cols.
Proof.
  intros Hr Hrs. revert r Hr.
  induction Hrs as [|x rs Hx _ IH]; intros r Hr; simpl; [assumption|].
  apply IH. now apply np_add_shape.
Qed.

(** Entry by entry, the left fold of [np.add] is the sum over the atoms. *)
Lemma fold_np_add_nth (rs : list (list (list C))) (r : list (list C)) (rows cols i t : nat) :
  shape r rows cols -> Forall (fun x => shape x rows cols) rs ->
  (i < rows)%nat -> (t < cols)%nat ->
  nth t (nth i (fold_left np_add rs r) []) C0 = Spec.atom_sum (r :: rs) i t.
Proof.
  intros Hr Hrs Hi Ht. revert r Hr.
  induction Hrs as [|x rs Hx _ IH]; intros r Hr.
  - unfold Spec.atom_sum. simpl. now rewrite Cadd_0_r.
  - cbn [fold_left]. rewrite IH by now apply np_add_shape.
    unfold Spec.atom_sum. cbn [map Csum fold_right].
    rewrite (np_add_nth r x rows cols) by assumption.
    now rewrite Cadd_assoc.
Qed.

Lemma frames_nonempty (tr : list (list vec3)) (n : nat) (a : list vec3) :
  frames tr n -> (1 <= n)%nat -> In a tr -> a <> [].
Proof.
  unfold frames. rewrite Forall_forall. intros F Hn Ha E.
  apply F in Ha. subst a. simpl in Ha. lia.
Qed.

Lemma uimap_serial_worker (tr : list (list vec3)) (q : list vec3) (s_inc : list R) (n : nat) :
  q <> [] -> (1 <= n)%nat -> frames tr n ->
  uimap (serial_worker q) tr s_inc = Returns (per_atom_results tr q s_inc).
Proof.
  intros Hq Hn Hf. unfold uimap, per_atom_results.
  apply mapM_returns. intros [a w] Hp. simpl.
  apply serial_worker_returns; [assumption|].
  apply (frames_nonempty tr n); [assumption..|].
  now apply in_combine_l in Hp.
Qed.

Lemma per_atom_results_shape (tr : list (list vec3)) (q : list vec3) (s_inc : list R) (n : nat) :
  (1 <= n)%nat -> frames tr n ->
  Forall (fun x => shape x (length q) n) (per_atom_results tr q s_inc).
Proof.
  intros Hn Hf. unfold per_atom_results. apply Forall_forall.
  intros r Hr. apply in_map_iff in Hr. destruct Hr as [[a w] [<- Hp]]. simpl.
  apply in_combine_l in Hp.
  assert (Ha : length a = n) by (unfold frames in Hf; rewrite Forall_forall in Hf; auto).
  rewrite <- Ha. apply per_atom_shape.
  now apply (frames_nonempty tr n).
Qed.

Lemma squares_sum (s : list R) : np_sum (zip_with Rmult s s) = squared_weight_sum s.
Proof.
  unfold squared_weight_sum, np_sum.
  induction s as [|w s IH]; [reflexivity|].
  cbn [zip_with map fold_right]. rewrite IH. ring.
Qed.

(** On well-shaped input [intermediate_vector_set] is the reduction of the
    per-atom arrays followed by the division. *)
Lemma intermediate_vector_set_unfold
  (tr : list (list vec3)) (q : list vec3) (s_inc : list R) (n : nat) :
  q <> [] -> (1 <= n)%nat -> frames tr n ->
  intermediate_vector_set tr q s_inc
  = (result <- functools_reduce np_add (per_atom_results tr q s_inc) ;;
     Returns (map (map (fun z => np_true_divide z (squared_weight_sum s_inc))) result)).
Proof.
  intros Hq Hn Hf. unfold intermediate_vector_set.
  rewrite (uimap_serial_worker tr q s_inc n) by assumption.
  now rewrite squares_sum.
Qed.

Lemma divide_shape (m : list (list C)) (d : R) (rows cols : nat) :
  shape m rows cols -> shape (map (map (fun z => np_true_divide z d)) m) rows cols.
Proof.
  intros [L F]. split; [now rewrite length_map|].
  apply Forall_forall. intros r Hr. apply in_map_iff in Hr.
  destruct Hr as [x [<- Hx]]. rewrite length_map.
  rewrite Forall_forall in F. now apply F.
Qed.

Lemma divide_nth (m : list (list C)) (d : R) (rows cols i t : nat) :
  shape m rows cols -> (i < rows)%nat -> (t < cols)%nat ->
  nth t (nth i (map (map (fun z => np_true_divide z d)) m) []) NonFinite
  = np_true_divide (nth t (nth i m []) C0) d.
Proof.
  intros [L F] Hi Ht.
  rewrite (nth_map_in _ _ _ [] []) by lia.
  apply (nth_map_in (fun z => np_true_divide z d)).
  rewrite Forall_forall in F. rewrite (F (nth i m [])); [assumption|].
  apply nth_In; lia.
Qed.

(** With at least one (atom, weight) pair, at least one wavevector and at
    least one frame, [intermediate_vector_set] returns an array of shape
    (#wavevectors, #frames): the total over the paired atoms, every entry
    divided by the sum of all squared weights. *)
Lemma intermediate_vector_set_returns
  (tr : list (list vec3)) (q : list vec3) (s_inc : list R) (n : nat) :
  q <> [] -> (1 <= n)%nat -> frames tr n -> combine tr s_inc <> [] ->
  exists total,
    intermediate_vector_set tr q s_inc
    = Returns (map (map (fun z => np_true_divide z (squared_weight_sum s_inc))) total)
    /\ shape total (length q) n
    /\ forall i t, (i < length q)%nat -> (t < n)%nat ->
         nth t (nth i total []) C0 = Spec.atom_sum (per_atom_results tr q s_inc) i t.
Proof.
  intros Hq Hn Hf Hc.
  rewrite (intermediate_vector_set_unfold tr q s_inc n) by assumption.
  pose proof (per_atom_results_shape tr q s_inc n Hn Hf) as Hs.
  destruct (per_atom_results tr q s_inc) as [|r rs] eqn:E.
  - unfold per_atom_results in E. apply map_eq_nil in E. contradiction.
  - inversion Hs as [|? ? Hr Hrs]; subst. cbn [functools_reduce bind].
    eexists. split; [reflexivity|]. split.
    + now apply fold_np_add_shape.
    + intros i t Hi Ht. now apply (fold_np_add_nth rs r (length q) n).
Qed.

Lemma combine_nonempty {A B : Type} (l : list A) (m : list B) :
  (1 <= length l)%nat -> (1 <= length m)%nat -> combine l m <> [].
Proof.
  destruct l, m; simpl; intros; try lia; discriminate.
Qed.

Lemma length_ge_1_nonempty {A : Type} (l : list A) : (1 <= length l)%nat -> l <> [].
Proof. destruct l; simpl; intros; [lia | discriminate]. Qed.

Lemma map_snd_combine {A B : Type} (l : list A) (m : list B) :
  (length m <= length l)%nat -> map snd (combine l m) = m.
Proof.
  revert m; induction l as [|a l IH]; intros [|b m] H; simpl in *; try reflexivity; try lia.
  f_equal. apply IH. lia.
Qed.

Lemma map_fst_combine {A B : Type} (l : list A) (m : list B) :
  (length l <= length m)%nat -> map fst (combine l m) = l.
Proof.
  revert m; induction l as [|a l IH]; intros [|b m] H; simpl in *; try reflexivity; try lia.
  f_equal. apply IH. lia.
Qed.

Lemma Forall2_map_r {A B : Type} (P : A -> B -> Prop) (g : A -> B) (l : list A) :
  (forall x, In x l -> P x (g x)) -> Forall2 P l (map g l).
Proof.
  induction l as [|a l IH]; intros H; simpl; constructor.
  - apply H; now left.
  - apply IH. intros; apply H; now right.
Qed.

(** C2.  For a trajectory array of #atoms >= 1 atoms and n >= 1 frames, as
    many weights, and a non-empty wavevector set, [intermediate_vector_set]
    returns the elementwise sum of the #atoms per-atom results divided by
    the sum over atoms of the squared weight, an array of shape
    (#wavevectors, #frames). *)
Theorem intermediate_vector_set_sum
  (tr : list (list vec3)) (q : list vec3) (s_inc : list R) (n : nat) :
  (1 <= length tr)%nat -> length s_inc = length tr -> frames tr n ->
  (1 <= n)%nat -> (1 <= length q)%nat ->
  exists rs m,
    Forall2 (fun p r => serial_worker q (fst p) (snd p) = Returns r) (combine tr s_inc) rs
    /\ length rs = length tr
    /\ intermediate_vector_set tr q s_inc = Returns m
    /\ shape m (length q) n
    /\ forall i t, (i < length q)%nat -> (t < n)%nat ->
         nth t (nth i m []) NonFinite
         = np_true_divide (Spec.atom_sum rs i t) (squared_weight_sum s_inc).
Proof.
  intros Htr Hs Hf Hn Hq.
  apply length_ge_1_nonempty in Hq.
  destruct (intermediate_vector_set_returns tr q s_inc n) as [total [E [Sh Hnth]]];
    try assumption.
  { apply combine_nonempty; lia. }
  exists (per_atom_results tr q s_inc).
  eexists.
  split; [|split; [|split; [exact E|split]]].
  - unfold per_atom_results. apply Forall2_map_r. intros [a w] Hp. simpl.
    apply serial_worker_returns; [assumption|].
    apply (frames_nonempty tr n); [assumption..|]. now apply in_combine_l in Hp.
  - unfold per_atom_results. rewrite length_map, length_combine. lia.
  - now apply divide_shape.
  - intros i t Hi Ht.
    rewrite (divide_nth _ _ (length q) n) by assumption.
    f_equal. now apply Hnth.
Qed.

Lemma intermediate_vector_set_sum_witness :
  let tr := [[(0, 0, 0); (1, 0, 0)]; [(0, 1, 0); (0, 2, 0)]; [(1, 1, 1); (1, 1, 1)]] in
  let q := [(1, 0, 0)] in
  let s_inc := [1; 2; 3] in
  length s_inc = length tr /\ frames tr 2 /\
  exists rs m,
    Forall2 (fun p r => serial_worker q (fst p) (snd p) = Returns r) (combine tr s_inc) rs
    /\ length rs = 3%nat
    /\ intermediate_vector_set tr q s_inc = Returns m
    /\ shape m 1 2
    /\ forall i t, (i < 1)%nat -> (t < 2)%nat ->
         nth t (nth i m []) NonFinite
         = np_true_divide (Spec.atom_sum rs i t) (squared_weight_sum s_inc).
Proof.
  intros tr q s_inc.
  assert (F : frames tr 2) by (repeat constructor).
  split; [reflexivity|]. split; [exact F|].
  apply (intermediate_vector_set_sum tr q s_inc 2);
    [simpl; lia | reflexivity | exact F | lia | simpl; lia].
Defined.

(** ** Lag 0 of the ensemble *)

Lemma Csum_RtoC {A : Type} (f : A -> R) (l : list A) :
  Csum (map (fun x => RtoC (f x)) l) = RtoC (np_sum (map f l)).
Proof.
  induction l as [|a l IH]; [reflexivity|].
  cbn [map Csum fold_right np_sum]. fold (Csum (map (fun x => RtoC (f x)) l)).
  rewrite IH. unfold np_sum. Ceq.
Qed.

Lemma atom_sum_lag0 (tr : list (list vec3)) (q : list vec3) (s_inc : list R) (n i : nat) :
  (1 <= n)%nat -> frames tr n -> length s_inc = length tr -> (i < length q)%nat ->
  Spec.atom_sum (per_atom_results tr q s_inc) i 0 = RtoC (squared_weight_sum s_inc).
Proof.
  intros Hn Hf Hs Hi. unfold Spec.atom_sum, per_atom_results.
  rewrite map_map.
  rewrite (map_ext_in _ (fun p => RtoC (snd p ^ 2))).
  - rewrite Csum_RtoC. unfold squared_weight_sum.
    rewrite <- (map_snd_combine tr s_inc) at 2 by lia.
    now rewrite map_map.
  - intros [a w] Hp. simpl. apply per_atom_lag0; [|assumption].
    apply (frames_nonempty tr n); [assumption..|]. now apply in_combine_l in Hp.
Qed.

Lemma divide_by_itself (d : R) : 0 < d -> np_true_divide (RtoC d) d = Fin C1.
Proof.
  intros Hd. unfold np_true_divide.
  destruct (Req_dec_T d 0) as [E|_]; [lra|].
  unfold Cdiv_real, RtoC, C1; simpl. do 2 f_equal; field; lra.
Qed.



(** ** Order of the atoms *)

Lemma np_sum_perm (l l' : list R) : Permutation l l' -> np_sum l = np_sum l'.
Proof.
  unfold np_sum.
  induction 1 as [|a l l' _ IH|a b l|l l' l'' _ IH1 _ IH2]; simpl; lra.
Qed.

Lemma mapM_raises_all {A B : Type} (f : A -> outcome B) (e : exn) (l : list A) :
  l <> [] -> (forall x, In x l -> f x = Raises e) -> mapM f l = Raises e.
Proof.
  destruct l as [|a l]; [congruence|]. intros _ H. simpl.
  now rewrite H by now left.
Qed.

(** C7.  Permuting the atom axis of the trajectory and of the weights
    together leaves the output of [intermediate_vector_set] unchanged, be
    it an array or an exception. *)
Theorem intermediate_vector_set_perm
  (tr tr' : list (list vec3)) (q : list vec3) (s_inc s_inc' : list R) (n : nat) :
  frames tr n -> length s_inc = length tr -> length s_inc' = length tr' ->
  Permutation (combine tr s_inc) (combine tr' s_inc') ->
  intermediate_vector_set tr q s_inc = intermediate_vector_set tr' q s_inc'.
Proof.
  intros Hf Hs Hs' Hp.
  assert (Ptr : Permutation tr tr').
  { rewrite <- (map_fst_combine tr s_inc), <- (map_fst_combine tr' s_inc') by lia.
    now apply Permutation_map. }
  assert (Ps : Permutation s_inc s_inc').
  { rewrite <- (map_snd_combine tr s_inc), <- (map_snd_combine tr' s_inc') by lia.
    now apply Permutation_map. }
  assert (Hf' : frames tr' n).
  { unfold frames in *. rewrite Forall_forall in *. intros a Ha.
    apply Hf. now apply (Permutation_in _ (Permutation_sym Ptr)). }
  destruct (combine tr s_inc) as [|p0 ps] eqn:Ec.
  { apply Permutation_nil in Hp. unfold intermediate_vector_set, uimap.
    now rewrite Ec, Hp. }
  assert (Hc' : combine tr' s_inc' <> []).
  { intros E. rewrite E in Hp. apply Permutation_sym, Permutation_nil in Hp. discriminate. }
  rewrite <- Ec in Hp.
  assert (Hc : combine tr s_inc <> []) by now rewrite Ec.
  clear Ec p0 ps.
  destruct q as [|q0 q'].
  { unfold intermediate_vector_set, uimap.
    rewrite !(mapM_raises_all _ IndexError); try assumption; try reflexivity;
      intros; apply serial_worker_no_wavevector. }
  destruct n as [|n].
  { unfold intermediate_vector_set, uimap.
    assert (R0 : forall t s, frames t 0 -> forall x, In x (combine t s) ->
                 serial_worker (q0 :: q') (fst x) (snd x) = Raises ValueError).
    { intros t s F [a w] Hx. apply in_combine_l in Hx.
      unfold frames in F. rewrite Forall_forall in F. apply F in Hx.
      apply length_zero_iff_nil in Hx. simpl. now rewrite Hx. }
    rewrite !(mapM_raises_all _ ValueError); try assumption; try reflexivity.
    - now apply R0.
    - now apply R0. }
  rewrite (intermediate_vector_set_unfold tr _ s_inc (S n)),
          (intermediate_vector_set_unfold tr' _ s_inc' (S n));
    try assumption; try discriminate; try lia.
  rewrite (reduce_perm np_add np_add_comm np_add_assoc _ (per_atom_results tr' (q0 :: q') s_inc')).
  - unfold squared_weight_sum.
    rewrite (np_sum_perm _ (map (fun w => w ^ 2) s_inc')); [reflexivity|].
    now apply Permutation_map.
  - unfold per_atom_results. now apply Permutation_map.
Qed.

Lemma intermediate_vector_set_perm_witness :
  let a := [(0, 0, 0); (1, 0, 0)] in
  let b := [(0, 1, 0); (0, 2, 0)] in
  let c := [(1, 1, 1); (2, 1, 1)] in
  let q := [(1, 0, 0); (0, 1, 0)] in
  frames [a; b; c] 2
  /\ Permutation (combine [a; b; c] [1; 2; 3]) (combine [c; a; b] [3; 1; 2])
  /\ intermediate_vector_set [a; b; c] q [1; 2; 3]
     = intermediate_vector_set [c; a; b] q [3; 1; 2].
Proof.
  intros a b c q.
  assert (F : frames [a; b; c] 2) by (repeat constructor).
  assert (P : Permutation (combine [a; b; c] [1; 2; 3]) (combine [c; a; b] [3; 1; 2])).
  { simpl. apply Permutation_sym.
    apply (Permutation_cons_app [(a, 1); (b, 2)] [] (c, 3)).
    rewrite app_nil_r. apply Permutation_refl. }
  split; [exact F|]. split; [exact P|].
  apply (intermediate_vector_set_perm [a; b; c] [c; a; b] q [1; 2; 3] [3; 1; 2] 2 F);
    [reflexivity | reflexivity | exact P].
Defined.

(** ** Evaluation on given arrays *)

Lemma dot3_origin_l (r : vec3) : dot3 (0, 0, 0) r = 0.
Proof. destruct r as [[x y] z]. cbv [dot3]. ring. Qed.

Lemma dot3_origin_r (r : vec3) : dot3 r (0, 0, 0) = 0.
Proof. destruct r as [[x y] z]. cbv [dot3]. ring. Qed.

Lemma dot3_x_x : dot3 (1, 0, 0) (1, 0, 0) = 1.
Proof. cbv [dot3]. ring. Qed.

(** The specification's scenario of two stationary atoms, three frames,
    unit weights and the zero wavevector: all ones, shape (1, 3). *)
Example scenario_stationary :
  intermediate_vector_set
    [[(0, 0, 0); (0, 0, 0); (0, 0, 0)]; [(1, 0, 0); (1, 0, 0); (1, 0, 0)]]
    [(0, 0, 0)] [1; 1]
  = Returns [[Fin C1; Fin C1; Fin C1]].
Proof.
  eval_arrays. rewrite !dot3_origin_l, amplitude_euler, cos_0, sin_0.
  destruct (Req_dec_T (1 * 1 + (1 * 1 + 0)) 0) as [E|_]; [lra|].
  array_eq; field.
Qed.

Lemma dot3_x_PI : dot3 (1, 0, 0) (PI, 0, 0) = PI.
Proof. cbv [dot3]. ring. Qed.

Lemma dot3_x_2PI : dot3 (1, 0, 0) (2 * PI, 0, 0) = 2 * PI.
Proof. cbv [dot3]. ring. Qed.

(** The specification's scenario of an atom whose phase [q.r(t)] grows by
    pi every frame: plus the squared weight at even lags, minus at odd. *)
Example scenario_alternating :
  serial_worker [(1, 0, 0)] [(0, 0, 0); (PI, 0, 0); (2 * PI, 0, 0)] 2
  = Returns [[(4, 0); (- 4, 0); (4, 0)]].
Proof.
  eval_arrays.
  rewrite dot3_origin_r, dot3_x_PI, dot3_x_2PI, !amplitude_euler,
    cos_0, sin_0, cos_PI, sin_PI, cos_2PI, sin_2PI.
  array_eq; field.
Qed.

(** A moving atom: the entry at lag 1 is [exp(-i)]. *)
Lemma moving_atom_row :
  serial_worker [(1, 0, 0)] [(0, 0, 0); (1, 0, 0)] 1
  = Returns [[(1, 0); (cos 1, - sin 1)]].
Proof.
  eval_arrays. rewrite dot3_origin_r, dot3_x_x, !amplitude_euler, cos_0, sin_0.
  pose proof (sin2_cos2 1) as H. unfold Rsqr in H.
  array_eq; try field. nra.
Qed.

Lemma moving_atom_ensemble :
  intermediate_vector_set [[(0, 0, 0); (1, 0, 0)]] [(1, 0, 0)] [1]
  = Returns [[Fin (1, 0); Fin (cos 1, - sin 1)]].
Proof.
  unfold intermediate_vector_set, uimap. cbn [combine mapM fst snd].
  rewrite moving_atom_row. eval_arrays.
  destruct (Req_dec_T (1 * 1 + 0) 0) as [E|_]; [lra|].
  array_eq; field.
Qed.

Lemma sin_1_nonzero : sin 1 <> 0.
Proof.
  assert (0 < sin 1); [|lra].
  apply sin_gt_0; [lra|]. generalize PI2_1; lra.
Qed.

(** ** Real and complex entries *)

Lemma divide_real (d : R) :
  d <> 0 -> exists z, np_true_divide (RtoC d) d = Fin z /\ Im z = 0.
Proof.
  intros Hd. unfold np_true_divide.
  destruct (Req_dec_T d 0) as [E|_]; [contradiction|].
  eexists. split; [reflexivity|].
  unfold Cdiv_real, RtoC, Im; simpl. field. assumption.
Qed.

(** C3, as the code has it.  The arrays are complex; what is real in them
    is the lag-0 column: for every trajectory of at least one frame, every
    weight and every wavevector, the entry at lag 0 of the per-atom array,
    and of the ensemble array when the squared weights do not sum to zero,
    has zero imaginary part. *)
Theorem lag0_imaginary_part
  (tr : list (list vec3)) (q : list vec3) (s_inc : list R) (n : nat) :
  (1 <= n)%nat -> (1 <= length q)%nat ->
  (forall (atomic_tr : list vec3) (w : R) (i : nat),
      length atomic_tr = n -> (i < length q)%nat ->
      exists r, serial_worker q atomic_tr w = Returns r
                /\ Im (nth 0 (nth i r []) C0) = 0)
  /\ ((1 <= length tr)%nat -> length s_inc = length tr -> frames tr n ->
      squared_weight_sum s_inc <> 0 ->
      exists m, intermediate_vector_set tr q s_inc = Returns m
                /\ forall i, (i < length q)%nat ->
                     exists z, nth 0 (nth i m []) NonFinite = Fin z /\ Im z = 0).
Proof.
  intros Hn Hq. apply length_ge_1_nonempty in Hq. split.
  - intros atomic_tr w i Ha Hi.
    assert (atomic_tr <> []) by (apply length_ge_1_nonempty; lia).
    exists (Spec.per_atom q atomic_tr w). split.
    + now apply serial_worker_returns.
    + now rewrite per_atom_lag0.
  - intros Htr Hs Hf Hd.
    destruct (intermediate_vector_set_returns tr q s_inc n) as [total [E [Sh Hnth]]];
      try assumption.
    { apply combine_nonempty; lia. }
    eexists. split; [exact E|].
    intros i Hi.
    rewrite (divide_nth _ _ (length q) n) by (try assumption; lia).
    rewrite Hnth by (try assumption; lia).
    rewrite (atom_sum_lag0 tr q s_inc n) by assumption.
    now apply divide_real.
Qed.

Lemma lag0_imaginary_part_witness :
  let tr := [[(0, 0, 0); (1, 0, 0)]] in
  let q := [(1, 0, 0)] in
  (exists r, serial_worker q [(0, 0, 0); (1, 0, 0)] 1 = Returns r
             /\ Im (nth 0 (nth 0 r []) C0) = 0)
  /\ (exists m, intermediate_vector_set tr q [1] = Returns m
                /\ forall i, (i < 1)%nat ->
                     exists z, nth 0 (nth i m []) NonFinite = Fin z /\ Im z = 0).
Proof.
  intros tr q.
  destruct (lag0_imaginary_part tr q [1] 2) as [Hatom Hall]; [lia | simpl; lia |].
  split.
  - apply Hatom; [reflexivity | simpl; lia].
  - apply Hall.
    + simpl; lia.
    + reflexivity.
    + repeat constructor.
    + unfold squared_weight_sum; simpl; lra.
Defined.

(** C3 as stated fails: for an atom that moves from the origin to
    (1, 0, 0), unit weight and the wavevector (1, 0, 0), the entry at lag 1
    of the per-atom array and of the ensemble array is [exp(-i)], of
    imaginary part [- sin 1]. *)
Lemma output_not_real :
  serial_worker [(1, 0, 0)] [(0, 0, 0); (1, 0, 0)] 1
  = Returns [[(1, 0); (cos 1, - sin 1)]]
  /\ intermediate_vector_set [[(0, 0, 0); (1, 0, 0)]] [(1, 0, 0)] [1]
     = Returns [[Fin (1, 0); Fin (cos 1, - sin 1)]]
  /\ Im (cos 1, - sin 1) <> 0.
Proof.
  split; [exact moving_atom_row|]. split.
  - exact moving_atom_ensemble.
  - unfold Im; simpl. generalize sin_1_nonzero. lra.
Qed.

(** ** All weights zero *)

Lemma zero_weights_sum (s : list R) :
  Forall (fun w => w = 0) s -> squared_weight_sum s = 0.
Proof.
  unfold squared_weight_sum, np_sum.
  induction 1 as [|w s Hw _ IH]; [reflexivity|].
  cbn [map fold_right]. rewrite IH, Hw. ring.
Qed.

Lemma divide_by_zero_all (m : list (list C)) :
  all_non_finite (map (map (fun z => np_true_divide z 0)) m).
Proof.
  unfold all_non_finite. apply Forall_forall. intros r Hr.
  apply in_map_iff in Hr. destruct Hr as [x [<- _]].
  apply Forall_forall. intros c Hc.
  apply in_map_iff in Hc. destruct Hc as [z [<- _]].
  unfold np_true_divide. destruct (Req_dec_T 0 0) as [_|N]; [reflexivity | congruence].
Qed.

Lemma zero_weights_non_finite
  (tr : list (list vec3)) (q : list vec3) (s_inc : list R) (n : nat) :
  q <> [] -> (1 <= n)%nat -> frames tr n -> combine tr s_inc <> [] ->
  Forall (fun w => w = 0) s_inc ->
  exists m,
    intermediate_vector_set tr q s_inc = Returns m
    /\ shape m (length q) n /\ all_non_finite m.
Proof.
  intros Hq Hn Hf Hc Hz.
  destruct (intermediate_vector_set_returns tr q s_inc n) as [total [E [Sh _]]];
    try assumption.
  rewrite (zero_weights_sum s_inc Hz) in E.
  eexists. split; [exact E|]. split.
  - now apply divide_shape.
  - apply divide_by_zero_all.
Qed.

(** C5, as the code has it.  When every weight is zero (on an otherwise
    well-shaped input) [intermediate_vector_set] raises nothing: it returns
    the array of shape (#wavevectors, #frames) whose entries are all
    non-finite. *)
Theorem zero_weights_return
  (tr : list (list vec3)) (q : list vec3) (s_inc : list R) (n : nat) :
  (1 <= length tr)%nat -> length s_inc = length tr -> frames tr n ->
  (1 <= n)%nat -> (1 <= length q)%nat ->
  Forall (fun w => w = 0) s_inc ->
  exists m,
    intermediate_vector_set tr q s_inc = Returns m
    /\ shape m (length q) n /\ all_non_finite m.
Proof.
  intros Htr Hs Hf Hn Hq Hz.
  apply (zero_weights_non_finite tr q s_inc n); try assumption.
  - now apply length_ge_1_nonempty.
  - apply combine_nonempty; lia.
Qed.

Lemma zero_weights_return_witness :
  let tr := [[(0, 0, 0); (1, 0, 0)]; [(0, 1, 0); (0, 2, 0)]] in
  let q := [(1, 0, 0)] in
  Forall (fun w => w = 0) [0; 0]
  /\ exists m,
       intermediate_vector_set tr q [0; 0] = Returns m
       /\ shape m 1 2 /\ all_non_finite m.
Proof.
  intros tr q.
  assert (Z : Forall (fun w => w = 0) [0; 0]) by (repeat constructor).
  split; [exact Z|].
  apply (zero_weights_return tr q [0; 0] 2);
    [simpl; lia | reflexivity | repeat constructor | lia | simpl; lia | exact Z].
Defined.

(** C5 as stated fails: one atom at the origin with weight 0 and the zero
    wavevector give an array holding a non-finite entry, not an error. *)
Lemma zero_weight_no_error :
  intermediate_vector_set [[(0, 0, 0)]] [(0, 0, 0)] [0] = Returns [[NonFinite]].
Proof.
  eval_arrays.
  destruct (Req_dec_T (0 * 0 + 0) 0) as [_|N]; [reflexivity | exfalso; lra].
Qed.

(** ** Atom and weight counts that differ *)

Lemma combine_truncated {A B : Type} (l : list A) (m : list B) :
  combine (firstn (Nat.min (length l) (length m)) l)
          (firstn (Nat.min (length l) (length m)) m)
  = combine l m.
Proof.
  rewrite <- combine_firstn, <- length_combine. apply firstn_all.
Qed.

(** C6, as the code has it.  [intermediate_vector_set] checks no argument.
    With [k] the smaller of the atom and weight counts, it pairs the first
    [k] atoms with the first [k] weights and divides by the sum of the
    squares of all the weights; so when the counts differ (and there is a
    pair, a frame and a wavevector) it returns an array, and when there is
    no pair the reduction of no result raises [TypeError]. *)
Theorem no_argument_check
  (tr : list (list vec3)) (q : list vec3) (s_inc : list R) (n : nat) :
  let k := Nat.min (length tr) (length s_inc) in
  intermediate_vector_set tr q s_inc
  = (rs <- uimap (serial_worker q) (firstn k tr) (firstn k s_inc) ;;
     result <- functools_reduce np_add rs ;;
     Returns (map (map (fun z => np_true_divide z (squared_weight_sum s_inc))) result))
  /\ (length tr <> length s_inc -> (1 <= k)%nat -> frames tr n -> (1 <= n)%nat ->
      (1 <= length q)%nat ->
      exists m, intermediate_vector_set tr q s_inc = Returns m /\ shape m (length q) n)
  /\ (k = 0%nat -> intermediate_vector_set tr q s_inc = Raises TypeError).
Proof.
  intros k. split; [|split].
  - unfold intermediate_vector_set, uimap, k.
    now rewrite combine_truncated, squares_sum.
  - intros _ Hk Hf Hn Hq.
    destruct (intermediate_vector_set_returns tr q s_inc n) as [total [E [Sh _]]];
      try assumption.
    + now apply length_ge_1_nonempty.
    + apply combine_nonempty; unfold k in Hk; lia.
    + eexists. split; [exact E|]. now apply divide_shape.
  - intros Hk. unfold intermediate_vector_set, uimap.
    assert (E : combine tr s_inc = []).
    { apply length_zero_iff_nil. rewrite length_combine. exact Hk. }
    now rewrite E.
Qed.

Lemma no_argument_check_witness :
  let tr := [[(0, 0, 0); (1, 0, 0)]; [(0, 1, 0); (0, 2, 0)]; [(3, 1, 0); (0, 2, 0)]] in
  let q := [(1, 0, 0)] in
  (length tr <> length [1; 2]
   /\ exists m, intermediate_vector_set tr q [1; 2] = Returns m /\ shape m 1 2)
  /\ intermediate_vector_set [] q [1; 2] = Raises TypeError.
Proof.
  intros tr q. split.
  - assert (N : length tr <> length [1; 2]) by (simpl; lia).
    split; [exact N|].
    destruct (no_argument_check tr q [1; 2] 2) as [_ [H _]].
    apply H; [exact N | simpl; lia | repeat constructor | lia | simpl; lia].
  - destruct (no_argument_check [] q [1; 2] 0) as [_ [_ H]].
    apply H. reflexivity.
Defined.

(** C6 as stated fails: two atoms and one weight raise no error; the
    second atom is dropped and the first one alone makes the result. *)
Lemma mismatch_no_error :
  length [[(0, 0, 0)]; [(1, 0, 0)]] <> length [1]
  /\ intermediate_vector_set [[(0, 0, 0)]; [(1, 0, 0)]] [(0, 0, 0)] [1]
     = Returns [[Fin C1]].
Proof.
  split; [simpl; lia|].
  eval_arrays. rewrite dot3_origin_l, amplitude_euler, cos_0, sin_0.
  destruct (Req_dec_T (1 * 1 + 0) 0) as [E|_]; [lra|].
  array_eq; field.
Qed.

(** ** Averaging over the wavevectors *)

Lemma fp_div_count_1 (c : fp C) : fp_div_count c 1 = c.
Proof.
  destruct c as [[x y]|]; [|reflexivity].
  unfold fp_div_count, Cdiv_real; simpl. do 2 f_equal; field.
Qed.

(** C8.  The default policy on an array with one wavevector returns its
    single row unchanged, and so does [intermediate] when
    [intermediate_vector_set] returns such an array. *)
Theorem single_wavevector_average :
  (forall row : list (fp C), np_average [row] 0 = Returns row)
  /\ (forall tr q s_inc row,
        intermediate_vector_set tr q s_inc = Returns [row] ->
        intermediate tr q s_inc default_averaging = Returns row).
Proof.
  assert (A : forall row : list (fp C), np_average [row] 0 = Returns row).
  { intros row. unfold np_average. cbn [fold_left length]. f_equal.
    rewrite (map_ext _ (fun c => c)) by apply fp_div_count_1.
    apply map_id. }
  split; [exact A|].
  intros tr q s_inc row H. unfold intermediate. rewrite H. simpl bind.
  apply A.
Qed.

Lemma single_wavevector_average_witness :
  let tr := [[(0, 0, 0); (1, 0, 0)]] in
  let q := [(1, 0, 0)] in
  let row := [Fin (1, 0); Fin (cos 1, - sin 1)] in
  intermediate_vector_set tr q [1] = Returns [row]
  /\ intermediate tr q [1] default_averaging = Returns row.
Proof.
  intros tr q row.
  assert (H : intermediate_vector_set tr q [1] = Returns [row])
    by (exact moving_atom_ensemble).
  split; [exact H|].
  destruct single_wavevector_average as [_ A]. apply A. exact H.
Defined.

(** ** The table over magnitudes *)

Lemma fold_zip_length {A : Type} (f : A -> A -> A) (rs : list (list A)) (r : list A) (n : nat) :
  length r = n -> Forall (fun x => length x = n) rs ->
  length (fold_left (zip_with f) rs r) = n.
Proof.
  intros Hr Hrs. revert r Hr.
  induction Hrs as [|x rs Hx _ IH]; intros r Hr; simpl; [assumption|].
  apply IH. rewrite zip_with_length, Hr, Hx. apply Nat.min_id.
Qed.

Lemma np_average_axis0_length (m : list (list (fp C))) (rows n : nat) :
  shape m rows n -> (1 <= rows)%nat ->
  exists series, np_average m 0 = Returns series /\ length series = n.
Proof.
  intros [L F] Hr. destruct m as [|r rs]; [simpl in L; lia|].
  inversion F as [|? ? Hr0 Hrs]; subst.
  unfold np_average. eexists. split; [reflexivity|].
  rewrite length_map. now apply fold_zip_length.
Qed.

Lemma intermediate_default_returns
  (tr : list (list vec3)) (q : list vec3) (s_inc : list R) (n : nat) :
  q <> [] -> (1 <= n)%nat -> frames tr n -> combine tr s_inc <> [] ->
  exists series,
    intermediate tr q s_inc default_averaging = Returns series /\ length series = n.
Proof.
  intros Hq Hn Hf Hc.
  destruct (intermediate_vector_set_returns tr q s_inc n) as [total [E [Sh _]]];
    try assumption.
  unfold intermediate. rewrite E. cbn [bind default_averaging av_fun av_args av_kwargs].
  apply (np_average_axis0_length _ (length q)).
  - now apply divide_shape.
  - destruct q; [congruence | simpl; lia].
Qed.

Lemma mapM_Forall2 {A B : Type} (f : A -> outcome B) (P : A -> B -> Prop) (l : list A) :
  (forall x, In x l -> exists y, f x = Returns y /\ P x y) ->
  exists ys, mapM f l = Returns ys /\ Forall2 P l ys.
Proof.
  induction l as [|a l IH]; intros H.
  - exists []. split; [reflexivity | constructor].
  - destruct (H a (or_introl eq_refl)) as [y [Ey Py]].
    destruct IH as [ys [Eys Pys]]; [intros; apply H; now right|].
    exists (y :: ys). split; [|now constructor].
    simpl. rewrite Ey. simpl. now rewrite Eys.
Qed.

(** C9.  With a sampler that gives every requested magnitude a non-empty
    wavevector set (and a trajectory of at least one atom and one frame
    with as many weights), [intermediate_spherical] returns one row per
    magnitude, in input order: row [i] is the real part of the series that
    [intermediate] computes for the [i]-th magnitude, and has #frames
    entries. *)
Theorem intermediate_spherical_rows
  (sample : R -> list vec3)
  (tr : list (list vec3)) (q_mod : list R) (s_inc : list R) (n : nat) :
  (1 <= length tr)%nat -> length s_inc = length tr -> frames tr n -> (1 <= n)%nat ->
  (forall m, In m q_mod -> (1 <= length (sample m))%nat) ->
  exists rows,
    intermediate_spherical sample tr q_mod s_inc = Returns rows
    /\ length rows = length q_mod
    /\ Forall2 (fun m row =>
                  exists series,
                    intermediate tr (sample m) s_inc default_averaging = Returns series
                    /\ row = map np_real series
                    /\ length row = n)
               q_mod rows.
Proof.
  intros Htr Hs Hf Hn Hsample.
  unfold intermediate_spherical, sphere_average.
  destruct (mapM_Forall2
              (fun q_set =>
                 s <- intermediate tr q_set s_inc default_averaging ;;
                 Returns (map np_real s))
              (fun q_set row =>
                 exists series,
                   intermediate tr q_set s_inc default_averaging = Returns series
                   /\ row = map np_real series
                   /\ length row = n)
              (map sample q_mod)) as [rows [E F]].
  { intros q_set Hq. apply in_map_iff in Hq. destruct Hq as [m [<- Hm]].
    destruct (intermediate_default_returns tr (sample m) s_inc n) as [series [Es Ls]];
      try assumption.
    - apply length_ge_1_nonempty. now apply Hsample.
    - apply combine_nonempty; lia.
    - exists (map np_real series). split.
      + now rewrite Es.
      + exists series. split; [assumption|]. split; [reflexivity|].
        now rewrite length_map. }
  exists rows. split; [exact E|]. split.
  - apply Forall2_length in F. now rewrite length_map in F.
  - clear E. revert rows F. induction q_mod as [|m q_mod IH]; intros rows F.
    + inversion F. constructor.
    + inversion F as [|? ? ? ? Hhd Htl]; subst. constructor; [exact Hhd|].
      apply IH; [|exact Htl].
      intros; apply Hsample; now right.
Qed.

Lemma intermediate_spherical_rows_witness :
  let sample := fun m : R => [(m, 0, 0); (0, m, 0); (0, 0, m)] in
  let tr := [[(0, 0, 0); (1, 0, 0)]; [(0, 1, 0); (0, 2, 0)]] in
  let q_mod := [2; 1; 2] in
  let s_inc := [1; 3] in
  frames tr 2
  /\ (forall m, In m q_mod -> (1 <= length (sample m))%nat)
  /\ exists rows,
       intermediate_spherical sample tr q_mod s_inc = Returns rows
       /\ length rows = 3%nat
       /\ Forall2 (fun m row =>
                     exists series,
                       intermediate tr (sample m) s_inc default_averaging = Returns series
                       /\ row = map np_real series
                       /\ length row = 2%nat)
                  q_mod rows.
Proof.
  intros sample tr q_mod s_inc.
  assert (F : frames tr 2) by (repeat constructor).
  assert (S : forall m, In m q_mod -> (1 <= length (sample m))%nat)
    by (intros; simpl; lia).
  split; [exact F|]. split; [exact S|].
  apply (intermediate_spherical_rows sample tr q_mod s_inc 2);
    [simpl; lia | reflexivity | exact F | lia | exact S].
Defined.


(** The reals stand for float64 up to rounding only.  With 49 frames, the
    zero wavevector and weight 1, line 59 forms the lag-0 entry as
    [(1.0/49 * 1.0**2) * 49], which float64 rounds to a number below 1. *)
Example float64_lag0_rounding :
  PrimFloat.eqb (((1 / 49) * (1 * 1)) * 49)%float 1%float = false.
Proof. reflexivity. Qed.

(** * Further properties of the code *)

(** ** Non-negative lags in closed form *)

(** At lag [k >= 0] the correlation runs over the frames [k .. n-1]. *)
Lemma autocorr_nonneg (a : list C) (k : nat) :
  (k <= length a)%nat ->
  Spec.autocorr a (Z.of_nat k)
  = Csum (map (fun t => Cmul (nth t a C0) (Cconj (nth (t - k) a C0)))
              (seq k (length a - k))).
Proof.
  intros Hk. unfold Spec.autocorr.
  replace (seq 0 (length a)) with (seq 0 k ++ seq k (length a - k))
    by (change (seq k (length a - k)) with (seq (0 + k) (length a - k));
        rewrite <- seq_app; f_equal; lia).
  rewrite map_app, Csum_app.
  rewrite Csum_zero, Cadd_0_l.
  - f_equal. apply map_ext_in. intros t Ht. apply in_seq in Ht. cbv zeta.
    replace ((0 <=? Z.of_nat t - Z.of_nat k)%Z
             && (Z.of_nat t - Z.of_nat k <? Z.of_nat (length a))%Z)%bool
      with true by (symmetry; apply andb_true_intro; split;
                    [apply Z.leb_le | apply Z.ltb_lt]; lia).
    do 3 f_equal. lia.
  - intros t Ht. apply in_seq in Ht. cbv zeta.
    replace (0 <=? Z.of_nat t - Z.of_nat k)%Z with false
      by (symmetry; apply Z.leb_gt; lia).
    reflexivity.
Qed.

(** A sequence of equal phases correlates to the squared weight at every
    lag. *)
Lemma per_wavevector_flat (a : list C) (w : R) (c : C) :
  a <> [] -> (forall t, (t < length a)%nat -> nth t a C0 = c) ->
  Cmul c (Cconj c) = C1 ->
  Spec.per_wavevector a w = repeat (RtoC (w ^ 2)) (length a).
Proof.
  intros Ha Hc Hu.
  apply (nth_ext _ _ C0 C0).
  - now rewrite per_wavevector_length, repeat_length.
  - intros k Hk. rewrite per_wavevector_length in Hk by assumption.
    rewrite nth_repeat_lt by assumption.
    rewrite per_wavevector_nth, autocorr_nonneg by lia.
    rewrite Csum_ones.
    + rewrite length_seq, INR_IZR_INZ, Nat2Z.inj_sub by lia.
      assert (IZR (Z.of_nat (length a) - Z.of_nat k) <> 0) by (apply not_0_IZR; lia).
      unfold Cmul, RtoC; simpl. f_equal; field; assumption.
    + intros t Ht. apply in_seq in Ht.
      rewrite !Hc by lia. exact Hu.
Qed.

Lemma amplitude_at_unit (q r : vec3) :
  Cmul (Spec.amplitude_at q r) (Cconj (Spec.amplitude_at q r)) = C1.
Proof. apply unit_modulus. Qed.

Lemma amplitudes_nonempty (qi : vec3) (atomic_tr : list vec3) :
  atomic_tr <> [] -> Spec.amplitudes qi atomic_tr <> [].
Proof. destruct atomic_tr; [congruence | discriminate]. Qed.

Lemma repeat_nonempty {A : Type} (x : A) (n : nat) : (1 <= n)%nat -> repeat x n <> [].
Proof. destruct n; [lia | discriminate]. Qed.

(** X1.  A stationary atom (the same position [r] at each of [n >= 1]
    frames) gives, for every wavevector and every lag, the squared weight:
    the per-atom array is constant. *)
Theorem stationary_atom_flat (q : list vec3) (r : vec3) (n : nat) (w : R) :
  (1 <= length q)%nat -> (1 <= n)%nat ->
  serial_worker q (repeat r n) w
  = Returns (constant_array (length q) n (RtoC (w ^ 2))).
Proof.
  intros Hq Hn. apply length_ge_1_nonempty in Hq.
  rewrite serial_worker_returns by (try assumption; now apply repeat_nonempty).
  f_equal. unfold Spec.per_atom, constant_array.
  rewrite <- map_const. apply map_ext. intros qi.
  rewrite (per_wavevector_flat _ w (Spec.amplitude_at qi r)).
  - unfold Spec.amplitudes. now rewrite length_map, repeat_length.
  - apply amplitudes_nonempty. now apply repeat_nonempty.
  - intros t Ht. unfold Spec.amplitudes in *. rewrite length_map, repeat_length in Ht.
    rewrite (nth_map_in _ _ _ C0 r) by now rewrite repeat_length.
    now rewrite nth_repeat.
  - apply amplitude_at_unit.
Qed.

Lemma stationary_atom_flat_witness :
  serial_worker [(1, 2, 3); (0, 1, 0)] (repeat (4, 5, 6) 3) 2
  = Returns (constant_array 2 3 (RtoC (2 ^ 2))).
Proof.
  apply (stationary_atom_flat [(1, 2, 3); (0, 1, 0)] (4, 5, 6) 3 2); simpl; lia.
Defined.

(** X2.  For the zero wavevector every trajectory of at least one frame
    gives the squared weight at every lag, wherever the atom goes. *)
Theorem zero_wavevector_flat (atomic_tr : list vec3) (w : R) :
  (1 <= length atomic_tr)%nat ->
  serial_worker [(0, 0, 0)] atomic_tr w
  = Returns [repeat (RtoC (w ^ 2)) (length atomic_tr)].
Proof.
  intros Htr. apply length_ge_1_nonempty in Htr.
  rewrite serial_worker_returns by (try assumption; discriminate).
  f_equal. unfold Spec.per_atom. cbn [map]. f_equal.
  rewrite (per_wavevector_flat _ w C1).
  - unfold Spec.amplitudes. now rewrite length_map.
  - now apply amplitudes_nonempty.
  - intros t Ht. unfold Spec.amplitudes in *. rewrite length_map in Ht.
    rewrite (nth_map_in _ _ _ C0 (0, 0, 0)) by assumption.
    unfold Spec.amplitude_at. rewrite dot3_origin_l, cos_0, sin_0.
    unfold C1. f_equal. ring.
  - unfold Cmul, Cconj, C1; simpl. f_equal; ring.
Qed.

Lemma zero_wavevector_flat_witness :
  serial_worker [(0, 0, 0)] [(0, 0, 0); (1, 5, 0); (2, 0, 7)] 3
  = Returns [repeat (RtoC (3 ^ 2)) 3].
Proof.
  apply (zero_wavevector_flat [(0, 0, 0); (1, 5, 0); (2, 0, 7)] 3). simpl; lia.
Defined.

Lemma per_atom_zero_weight (q atomic_tr : list vec3) :
  atomic_tr <> [] ->
  Spec.per_atom q atomic_tr 0 = constant_array (length q) (length atomic_tr) C0.
Proof.
  intros Htr. unfold Spec.per_atom, constant_array.
  rewrite <- map_const. apply map_ext. intros qi.
  pose proof (amplitudes_nonempty qi atomic_tr Htr) as Hne.
  assert (Hl : length (Spec.amplitudes qi atomic_tr) = length atomic_tr)
    by (unfold Spec.amplitudes; apply length_map).
  apply (nth_ext _ _ C0 C0).
  - now rewrite per_wavevector_length, repeat_length.
  - intros k Hk. rewrite per_wavevector_length, Hl in Hk by assumption.
    rewrite nth_repeat_lt by assumption.
    rewrite per_wavevector_nth by lia.
    unfold Cmul, RtoC, C0; simpl. f_equal; ring.
Qed.

(** X3.  An atom of weight zero contributes the all-zero array, whatever
    its trajectory of at least one frame and the non-empty wavevector set. *)
Theorem zero_weight_atom (q atomic_tr : list vec3) :
  (1 <= length q)%nat -> (1 <= length atomic_tr)%nat ->
  serial_worker q atomic_tr 0
  = Returns (constant_array (length q) (length atomic_tr) C0).
Proof.
  intros Hq Htr.
  apply length_ge_1_nonempty in Hq. apply length_ge_1_nonempty in Htr.
  rewrite serial_worker_returns by assumption.
  f_equal. now apply per_atom_zero_weight.
Qed.

Lemma zero_weight_atom_witness :
  serial_worker [(1, 0, 0)] [(0, 0, 0); (1, 5, 0); (2, 0, 7)] 0
  = Returns (constant_array 1 3 C0).
Proof.
  apply (zero_weight_atom [(1, 0, 0)] [(0, 0, 0); (1, 5, 0); (2, 0, 7)]); simpl; lia.
Defined.

(** ** Change of origin *)

Lemma dot3_add_r (q d r : vec3) : dot3 q (vec3_add d r) = dot3 q d + dot3 q r.
Proof.
  destruct q as [[q1 q2] q3], d as [[d1 d2] d3], r as [[r1 r2] r3].
  cbv [dot3 vec3_add]. ring.
Qed.

Lemma amplitude_at_translate (q d r : vec3) :
  Spec.amplitude_at q (vec3_add d r)
  = Cmul (Spec.amplitude_at q d) (Spec.amplitude_at q r).
Proof.
  unfold Spec.amplitude_at. rewrite dot3_add_r, cos_plus, sin_plus.
  unfold Cmul; simpl. f_equal; ring.
Qed.

(** A common phase factor drops out of every product [a[t] * conj(a[s])]. *)
Lemma Cmul_phase (p x y : C) :
  Cmul p (Cconj p) = C1 ->
  Cmul (Cmul p x) (Cconj (Cmul p y)) = Cmul x (Cconj y).
Proof.
  destruct p as [p1 p2], x as [x1 x2], y as [y1 y2].
  unfold Cmul, Cconj, C1; simpl. intros H.
  assert (Hp : p1 * p1 + p2 * p2 = 1) by (injection H; intros; lra).
  f_equal.
  - transitivity ((p1 * p1 + p2 * p2) * (x1 * y1 + x2 * y2)); [ring|].
    rewrite Hp. ring.
  - transitivity ((p1 * p1 + p2 * p2) * (x2 * y1 - x1 * y2)); [ring|].
    rewrite Hp. ring.
Qed.

Lemma autocorr_phase (a : list C) (p : C) (k : Z) :
  Cmul p (Cconj p) = C1 ->
  Spec.autocorr (map (Cmul p) a) k = Spec.autocorr a k.
Proof.
  intros Hp. unfold Spec.autocorr. rewrite length_map.
  f_equal. apply map_ext_in. intros t Ht. apply in_seq in Ht. cbv zeta.
  destruct ((0 <=? Z.of_nat t - k)%Z && (Z.of_nat t - k <? Z.of_nat (length a))%Z)%bool
    eqn:G; [|reflexivity].
  apply andb_prop in G. destruct G as [G1 G2].
  apply Z.leb_le in G1. apply Z.ltb_lt in G2.
  rewrite !(nth_map_in (Cmul p) _ _ C0 C0) by lia.
  now apply Cmul_phase.
Qed.

Lemma per_wavevector_phase (a : list C) (p : C) (w : R) :
  Cmul p (Cconj p) = C1 ->
  Spec.per_wavevector (map (Cmul p) a) w = Spec.per_wavevector a w.
Proof.
  intros Hp. unfold Spec.per_wavevector. rewrite length_map.
  f_equal. apply map_ext. intros k. now rewrite autocorr_phase.
Qed.

Lemma per_atom_translate (q atomic_tr : list vec3) (d : vec3) (w : R) :
  Spec.per_atom q (map (vec3_add d) atomic_tr) w = Spec.per_atom q atomic_tr w.
Proof.
  unfold Spec.per_atom. apply map_ext. intros qi.
  replace (Spec.amplitudes qi (map (vec3_add d) atomic_tr))
    with (map (Cmul (Spec.amplitude_at qi d)) (Spec.amplitudes qi atomic_tr)).
  - apply per_wavevector_phase, amplitude_at_unit.
  - unfold Spec.amplitudes. rewrite !map_map. apply map_ext.
    intros r. symmetry. apply amplitude_at_translate.
Qed.

Lemma serial_worker_translate (q atomic_tr : list vec3) (d : vec3) (w : R) :
  serial_worker q (map (vec3_add d) atomic_tr) w = serial_worker q atomic_tr w.
Proof.
  destruct q as [|q0 q']; [reflexivity|].
  destruct atomic_tr as [|r0 rs]; [reflexivity|].
  rewrite !serial_worker_returns by discriminate.
  now rewrite per_atom_translate.
Qed.

Lemma mapM_map {A B D : Type} (f : B -> outcome D) (h : A -> B) (l : list A) :
  mapM f (map h l) = mapM (fun x => f (h x)) l.
Proof. induction l as [|a l IH]; simpl; [reflexivity | now rewrite IH]. Qed.

Lemma mapM_ext {A B : Type} (f g : A -> outcome B) (l : list A) :
  (forall x, In x l -> f x = g x) -> mapM f l = mapM g l.
Proof.
  induction l as [|a l IH]; intros H; simpl; [reflexivity|].
  rewrite H by now left. rewrite IH; [reflexivity|].
  intros; apply H; now right.
Qed.

Lemma combine_map_l {A A' B : Type} (g : A -> A') (l : list A) (m : list B) :
  combine (map g l) m = map (fun p => (g (fst p), snd p)) (combine l m).
Proof.
  revert m; induction l as [|a l IH]; intros [|b m]; simpl; try reflexivity.
  now rewrite IH.
Qed.

Lemma combine_map_r {A B B' : Type} (g : B -> B') (l : list A) (m : list B) :
  combine l (map g m) = map (fun p => (fst p, g (snd p))) (combine l m).
Proof.
  revert m; induction l as [|a l IH]; intros [|b m]; simpl; try reflexivity.
  now rewrite IH.
Qed.

(** X4.  Moving the origin changes nothing: adding one vector [d] to every
    position of an atom leaves [serial_worker] unchanged, result or
    exception, and adding it to every position of every atom leaves
    [intermediate_vector_set] unchanged. *)
Theorem translation_invariance
  (tr : list (list vec3)) (q : list vec3) (s_inc : list R) (d : vec3) :
  (forall atomic_tr w,
      serial_worker q (map (vec3_add d) atomic_tr) w = serial_worker q atomic_tr w)
  /\ intermediate_vector_set (map (map (vec3_add d)) tr) q s_inc
     = intermediate_vector_set tr q s_inc.
Proof.
  split; [intros; apply serial_worker_translate|].
  unfold intermediate_vector_set, uimap.
  rewrite combine_map_l, mapM_map. cbn [fst snd].
  rewrite (mapM_ext _ (fun p => serial_worker q (fst p) (snd p))); [reflexivity|].
  intros; apply serial_worker_translate.
Qed.

(** ** Opposite wavevectors *)

Lemma dot3_opp_l (q r : vec3) : dot3 (vec3_opp q) r = - dot3 q r.
Proof.
  destruct q as [[q1 q2] q3], r as [[r1 r2] r3]. cbv [dot3 vec3_opp]. ring.
Qed.

Lemma amplitude_at_opp (q r : vec3) :
  Spec.amplitude_at (vec3_opp q) r = Cconj (Spec.amplitude_at q r).
Proof.
  unfold Spec.amplitude_at, Cconj. rewrite dot3_opp_l, cos_neg, sin_neg. reflexivity.
Qed.

Lemma Cconj_sum (l : list C) : Cconj (Csum l) = Csum (map Cconj l).
Proof.
  induction l as [|a l IH]; simpl.
  - unfold Cconj, C0; simpl. f_equal. ring.
  - rewrite <- IH. unfold Cconj, Cadd; simpl. f_equal. ring.
Qed.

Lemma autocorr_conj (a : list C) (k : Z) :
  Spec.autocorr (map Cconj a) k = Cconj (Spec.autocorr a k).
Proof.
  unfold Spec.autocorr. rewrite length_map, Cconj_sum, map_map.
  f_equal. apply map_ext_in. intros t Ht. apply in_seq in Ht. cbv zeta.
  destruct ((0 <=? Z.of_nat t - k)%Z && (Z.of_nat t - k <? Z.of_nat (length a))%Z)%bool
    eqn:G.
  - apply andb_prop in G. destruct G as [G1 G2].
    apply Z.leb_le in G1. apply Z.ltb_lt in G2.
    rewrite !(nth_map_in Cconj _ _ C0 C0) by lia.
    unfold Cconj, Cmul; simpl. f_equal; ring.
  - unfold Cconj, C0; simpl. f_equal. ring.
Qed.

Lemma per_wavevector_conj (a : list C) (w : R) :
  Spec.per_wavevector (map Cconj a) w = map Cconj (Spec.per_wavevector a w).
Proof.
  unfold Spec.per_wavevector. rewrite length_map, <- skipn_map, map_map.
  f_equal. apply map_ext. intros k. rewrite autocorr_conj.
  unfold Cconj, Cmul, RtoC; simpl. f_equal; ring.
Qed.

Lemma per_atom_opp (q atomic_tr : list vec3) (w : R) :
  Spec.per_atom (map vec3_opp q) atomic_tr w
  = map (map Cconj) (Spec.per_atom q atomic_tr w).
Proof.
  unfold Spec.per_atom. rewrite !map_map. apply map_ext. intros qi.
  rewrite <- per_wavevector_conj. f_equal.
  unfold Spec.amplitudes. rewrite map_map. apply map_ext.
  intros r. apply amplitude_at_opp.
Qed.

(** X5.  Reversing every wavevector conjugates the per-atom array, entry
    by entry, and raises what the original set raises. *)
Theorem opposite_wavevectors (q atomic_tr : list vec3) (w : R) :
  serial_worker (map vec3_opp q) atomic_tr w
  = (r <- serial_worker q atomic_tr w ;; Returns (map (map Cconj) r)).
Proof.
  destruct q as [|q0 q']; [reflexivity|].
  destruct atomic_tr as [|r0 rs]; [reflexivity|].
  rewrite !serial_worker_returns by discriminate.
  cbn [bind]. f_equal. apply (per_atom_opp (q0 :: q')).
Qed.

(** ** Which inputs return and which raise *)

Lemma intermediate_vector_set_no_pair
  (tr : list (list vec3)) (q : list vec3) (s_inc : list R) :
  combine tr s_inc = [] -> intermediate_vector_set tr q s_inc = Raises TypeError.
Proof.
  intros E. unfold intermediate_vector_set, uimap. now rewrite E.
Qed.

Lemma intermediate_vector_set_no_wavevector
  (tr : list (list vec3)) (s_inc : list R) :
  combine tr s_inc <> [] -> intermediate_vector_set tr [] s_inc = Raises IndexError.
Proof.
  intros Hc. unfold intermediate_vector_set, uimap.
  rewrite (mapM_raises_all _ IndexError); [reflexivity | assumption |].
  intros; apply serial_worker_no_wavevector.
Qed.

Lemma intermediate_vector_set_no_frame
  (tr : list (list vec3)) (q : list vec3) (s_inc : list R) :
  combine tr s_inc <> [] -> q <> [] -> frames tr 0 ->
  intermediate_vector_set tr q s_inc = Raises ValueError.
Proof.
  intros Hc Hq Hf. unfold intermediate_vector_set, uimap.
  rewrite (mapM_raises_all _ ValueError); [reflexivity | assumption |].
  intros [a w] Hx. apply in_combine_l in Hx.
  unfold frames in Hf. rewrite Forall_forall in Hf. apply Hf in Hx.
  apply length_zero_iff_nil in Hx. simpl. rewrite Hx.
  now apply serial_worker_no_frame.
Qed.

Lemma min_length_combine {A B : Type} (l : list A) (m : list B) :
  (1 <= Nat.min (length l) (length m))%nat -> combine l m <> [].
Proof. intros H. apply combine_nonempty; lia. Qed.

(** X6.  On a trajectory array of [n] frames per atom, what
    [intermediate_vector_set] does is decided by three sizes, in this
    order: no (atom, weight) pair raises [TypeError]; else no wavevector
    raises [IndexError]; else no frame raises [ValueError]; else an array
    of shape (#wavevectors, #frames) is returned. *)
Theorem intermediate_vector_set_outcome
  (tr : list (list vec3)) (q : list vec3) (s_inc : list R) (n : nat) :
  frames tr n ->
  let pairs := Nat.min (length tr) (length s_inc) in
  (pairs = 0%nat -> intermediate_vector_set tr q s_inc = Raises TypeError)
  /\ ((1 <= pairs)%nat -> length q = 0%nat ->
      intermediate_vector_set tr q s_inc = Raises IndexError)
  /\ ((1 <= pairs)%nat -> (1 <= length q)%nat -> n = 0%nat ->
      intermediate_vector_set tr q s_inc = Raises ValueError)
  /\ ((1 <= pairs)%nat -> (1 <= length q)%nat -> (1 <= n)%nat ->
      exists m, intermediate_vector_set tr q s_inc = Returns m
                /\ shape m (length q) n).
Proof.
  intros Hf pairs. repeat split.
  - intros Hp. apply intermediate_vector_set_no_pair.
    apply length_zero_iff_nil. now rewrite length_combine.
  - intros Hp Hq. apply length_zero_iff_nil in Hq. subst q.
    apply intermediate_vector_set_no_wavevector. now apply min_length_combine.
  - intros Hp Hq Hn. subst n.
    apply intermediate_vector_set_no_frame; try assumption.
    + now apply min_length_combine.
    + now apply length_ge_1_nonempty.
  - intros Hp Hq Hn.
    destruct (intermediate_vector_set_returns tr q s_inc n) as [total [E [Sh _]]];
      try assumption.
    + now apply length_ge_1_nonempty.
    + now apply min_length_combine.
    + eexists. split; [exact E|]. now apply divide_shape.
Qed.

Lemma intermediate_vector_set_outcome_witness :
  intermediate_vector_set [] [(1, 0, 0)] [1] = Raises TypeError
  /\ intermediate_vector_set [[(0, 0, 0)]] [] [1] = Raises IndexError
  /\ intermediate_vector_set [[]; []] [(1, 0, 0)] [1; 2] = Raises ValueError
  /\ exists m, intermediate_vector_set [[(0, 0, 0)]; [(1, 0, 0)]] [(1, 0, 0)] [1; 2]
               = Returns m /\ shape m 1 1.
Proof.
  split; [|split; [|split]].
  - apply (intermediate_vector_set_outcome [] [(1, 0, 0)] [1] 0); [constructor | reflexivity].
  - apply (intermediate_vector_set_outcome [[(0, 0, 0)]] [] [1] 1);
      [repeat constructor | simpl; lia | reflexivity].
  - apply (intermediate_vector_set_outcome [[]; []] [(1, 0, 0)] [1; 2] 0);
      [repeat constructor | simpl; lia | simpl; lia | reflexivity].
  - apply (intermediate_vector_set_outcome [[(0, 0, 0)]; [(1, 0, 0)]] [(1, 0, 0)] [1; 2] 1);
      [repeat constructor | simpl; lia | simpl; lia | lia].
Defined.

(** ** Rescaling the weights *)

Lemma zip_with_map_same {A : Type} (f : A -> A -> A) (g : A -> A) (l m : list A) :
  (forall x y, f (g x) (g y) = g (f x y)) ->
  zip_with f (map g l) (map g m) = map g (zip_with f l m).
Proof.
  intros H. revert m; induction l as [|a l IH]; intros [|b m]; simpl; try reflexivity.
  now rewrite H, IH.
Qed.

Lemma np_add_scale (k : R) (a b : list (list C)) :
  np_add (array_scale k a) (array_scale k b) = array_scale k (np_add a b).
Proof.
  unfold np_add, array_scale. apply zip_with_map_same.
  intros x y. apply zip_with_map_same.
  intros u v. unfold Cmul, Cadd, RtoC; simpl. f_equal; ring.
Qed.

Lemma fold_np_add_scale (k : R) (rs : list (list (list C))) (r : list (list C)) :
  fold_left np_add (map (array_scale k) rs) (array_scale k r)
  = array_scale k (fold_left np_add rs r).
Proof.
  revert r; induction rs as [|x rs IH]; intros r; simpl; [reflexivity|].
  now rewrite np_add_scale, IH.
Qed.

Lemma reduce_scale (k : R) (rs : list (list (list C))) :
  functools_reduce np_add (map (array_scale k) rs)
  = (r <- functools_reduce np_add rs ;; Returns (array_scale k r)).
Proof.
  destruct rs as [|r rs]; [reflexivity|].
  simpl. now rewrite fold_np_add_scale.
Qed.

Lemma per_atom_scale (q atomic_tr : list vec3) (c w : R) :
  Spec.per_atom q atomic_tr (c * w) = array_scale (c ^ 2) (Spec.per_atom q atomic_tr w).
Proof.
  unfold Spec.per_atom, array_scale. rewrite map_map. apply map_ext. intros qi.
  unfold Spec.per_wavevector. rewrite <- skipn_map, map_map. f_equal.
  apply map_ext. intros k. unfold Cmul, RtoC; simpl. f_equal; ring.
Qed.

Lemma per_atom_results_scale (tr : list (list vec3)) (q : list vec3) (s_inc : list R) (c : R) :
  per_atom_results tr q (map (Rmult c) s_inc)
  = map (array_scale (c ^ 2)) (per_atom_results tr q s_inc).
Proof.
  unfold per_atom_results. rewrite combine_map_r, !map_map.
  apply map_ext. intros [a w]. simpl. apply per_atom_scale.
Qed.

Lemma squared_weight_sum_scale (s : list R) (c : R) :
  squared_weight_sum (map (Rmult c) s) = c ^ 2 * squared_weight_sum s.
Proof.
  unfold squared_weight_sum, np_sum.
  induction s as [|w s IH]; cbn [map fold_right]; [ring|].
  rewrite IH. ring.
Qed.

Lemma np_true_divide_scale (k d : R) (z : C) :
  k <> 0 -> np_true_divide (Cmul (RtoC k) z) (k * d) = np_true_divide z d.
Proof.
  intros Hk. unfold np_true_divide.
  destruct (Req_dec_T (k * d) 0) as [E|E], (Req_dec_T d 0) as [E'|E'].
  - reflexivity.
  - exfalso. apply Rmult_integral in E. tauto.
  - exfalso. apply E. rewrite E'. ring.
  - f_equal. unfold Cdiv_real, Cmul, RtoC; simpl. f_equal; field; tauto.
Qed.

(** X7.  Only the ratios of the weights matter: multiplying every weight
    by the same non-zero factor leaves [intermediate_vector_set] unchanged,
    array or exception. *)
Theorem weight_scaling
  (tr : list (list vec3)) (q : list vec3) (s_inc : list R) (c : R) (n : nat) :
  frames tr n -> c <> 0 ->
  intermediate_vector_set tr q (map (Rmult c) s_inc)
  = intermediate_vector_set tr q s_inc.
Proof.
  intros Hf Hc.
  destruct (combine tr s_inc) as [|p0 ps] eqn:Ec.
  { rewrite !intermediate_vector_set_no_pair; try reflexivity; try assumption.
    now rewrite combine_map_r, Ec. }
  assert (Hne : combine tr s_inc <> []) by now rewrite Ec.
  assert (Hne' : combine tr (map (Rmult c) s_inc) <> []).
  { rewrite combine_map_r, Ec. discriminate. }
  clear Ec p0 ps.
  destruct q as [|q0 q'].
  { now rewrite !intermediate_vector_set_no_wavevector. }
  destruct n as [|n].
  { now rewrite !intermediate_vector_set_no_frame by (try assumption; discriminate). }
  rewrite !(intermediate_vector_set_unfold tr _ _ (S n)) by (try assumption; try discriminate; lia).
  rewrite per_atom_results_scale, reduce_scale, squared_weight_sum_scale.
  destruct (functools_reduce np_add (per_atom_results tr (q0 :: q') s_inc)) as [r|e];
    [|reflexivity].
  cbn [bind]. f_equal. unfold array_scale. rewrite map_map.
  apply map_ext. intros row. rewrite map_map. apply map_ext. intros z.
  apply np_true_divide_scale. apply pow_nonzero. assumption.
Qed.

Lemma weight_scaling_witness :
  let tr := [[(0, 0, 0); (1, 0, 0)]; [(0, 1, 0); (0, 2, 0)]] in
  intermediate_vector_set tr [(1, 1, 0)] (map (Rmult 5) [1; 3])
  = intermediate_vector_set tr [(1, 1, 0)] [1; 3].
Proof.
  intros tr.
  apply (weight_scaling tr [(1, 1, 0)] [1; 3] 5 2); [repeat constructor | lra].
Defined.

(** ** One wavevector at a time *)

Lemma per_atom_row (q atomic_tr : list vec3) (w : R) (i : nat) :
  (i < length q)%nat ->
  nth i (Spec.per_atom q atomic_tr w) []
  = nth 0 (Spec.per_atom [nth i q (0, 0, 0)] atomic_tr w) [].
Proof.
  intros Hi. unfold Spec.per_atom.
  now rewrite (nth_map_in _ _ _ [] (0, 0, 0)) by assumption.
Qed.

Lemma atom_sum_row (tr : list (list vec3)) (q : list vec3) (s_inc : list R) (i t : nat) :
  (i < length q)%nat ->
  Spec.atom_sum (per_atom_results tr q s_inc) i t
  = Spec.atom_sum (per_atom_results tr [nth i q (0, 0, 0)] s_inc) 0 t.
Proof.
  intros Hi. unfold Spec.atom_sum, per_atom_results. rewrite !map_map.
  f_equal. apply map_ext. intros [a w]. simpl. now rewrite per_atom_row.
Qed.

(** X8.  The wavevectors do not mix: row [i] of the array that
    [intermediate_vector_set] returns for a wavevector set is the single
    row it returns for the [i]-th wavevector alone. *)
Theorem wavevector_rows_independent
  (tr : list (list vec3)) (q : list vec3) (s_inc : list R) (n i : nat) :
  frames tr n -> (1 <= n)%nat -> (1 <= Nat.min (length tr) (length s_inc))%nat ->
  (i < length q)%nat ->
  exists m row,
    intermediate_vector_set tr q s_inc = Returns m
    /\ intermediate_vector_set tr [nth i q (0, 0, 0)] s_inc = Returns [row]
    /\ nth i m [] = row.
Proof.
  intros Hf Hn Hp Hi.
  assert (Hq : q <> []) by (apply length_ge_1_nonempty; lia).
  pose proof (min_length_combine tr s_inc Hp) as Hc.
  destruct (intermediate_vector_set_returns tr q s_inc n) as [total [E [Sh Hnth]]];
    try assumption.
  destruct (intermediate_vector_set_returns tr [nth i q (0, 0, 0)] s_inc n)
    as [total1 [E1 [Sh1 Hnth1]]]; try assumption; try discriminate.
  destruct Sh1 as [L1 F1]. simpl in L1.
  destruct total1 as [|r1 [|? ?]]; try discriminate.
  inversion F1 as [|? ? Hr1 _]; subst.
  eexists. eexists. split; [exact E|]. split; [exact E1|].
  destruct Sh as [L F].
  rewrite (nth_map_in _ _ _ [] []) by lia.
  f_equal.
  assert (Hrow : length (nth i total []) = length r1).
  { rewrite Forall_forall in F. apply F. apply nth_In. lia. }
  apply (nth_ext _ _ C0 C0); [assumption|].
  intros t Ht. rewrite Hnth by lia.
  rewrite atom_sum_row by assumption.
  symmetry. apply (Hnth1 0%nat t); simpl; lia.
Qed.

Lemma wavevector_rows_independent_witness :
  let tr := [[(0, 0, 0); (1, 0, 0)]; [(0, 1, 0); (0, 2, 0)]] in
  let q := [(1, 0, 0); (0, 1, 0); (1, 1, 1)] in
  exists m row,
    intermediate_vector_set tr q [1; 3] = Returns m
    /\ intermediate_vector_set tr [(0, 1, 0)] [1; 3] = Returns [row]
    /\ nth 1 m [] = row.
Proof.
  intros tr q.
  apply (wavevector_rows_independent tr q [1; 3] 2 1);
    [repeat constructor | lia | simpl; lia | simpl; lia].
Defined.

(** ** An atom of weight zero among the others *)

Lemma combine_app_eq {A B : Type} (l1 l2 : list A) (m1 m2 : list B) :
  length l1 = length m1 ->
  combine (l1 ++ l2) (m1 ++ m2) = combine l1 m1 ++ combine l2 m2.
Proof.
  revert m1; induction l1 as [|a l1 IH]; intros [|b m1] H; simpl in *;
    try discriminate; [reflexivity|].
  f_equal. apply IH. lia.
Qed.

Lemma zip_add_zero_l (x : list C) : zip_with Cadd (repeat C0 (length x)) x = x.
Proof.
  induction x as [|c x IH]; simpl; [reflexivity|].
  now rewrite Cadd_0_l, IH.
Qed.

Lemma np_add_zero_l (r : list (list C)) (rows cols : nat) :
  shape r rows cols -> np_add (constant_array rows cols C0) r = r.
Proof.
  intros [L F]. subst rows. unfold np_add, constant_array.
  induction F as [|x r Hx _ IH]; simpl; [reflexivity|].
  rewrite IH. f_equal. rewrite <- Hx. apply zip_add_zero_l.
Qed.

Lemma np_sum_app (l m : list R) : np_sum (l ++ m) = np_sum l + np_sum m.
Proof.
  unfold np_sum. induction l as [|a l IH]; simpl; [ring|]. rewrite IH. ring.
Qed.

(** X9.  An atom of weight zero, wherever it stands among the atoms, does
    not change the result: dropping it and its weight gives the same
    array, as long as another (atom, weight) pair is left. *)
Theorem zero_weight_atom_ignored
  (tr1 tr2 : list (list vec3)) (a : list vec3) (s1 s2 : list R) (q : list vec3) (n : nat) :
  length tr1 = length s1 -> frames (tr1 ++ a :: tr2) n -> (1 <= n)%nat ->
  (1 <= length q)%nat ->
  (1 <= Nat.min (length (tr1 ++ tr2)) (length (s1 ++ s2)))%nat ->
  intermediate_vector_set (tr1 ++ a :: tr2) q (s1 ++ 0 :: s2)
  = intermediate_vector_set (tr1 ++ tr2) q (s1 ++ s2).
Proof.
  intros Hl Hf Hn Hq Hp.
  apply length_ge_1_nonempty in Hq.
  assert (Hf' : frames (tr1 ++ tr2) n).
  { unfold frames in *. apply Forall_app in Hf. destruct Hf as [F1 F2].
    inversion F2; subst. apply Forall_app. now split. }
  assert (Ha : length a = n).
  { unfold frames in Hf. apply Forall_app in Hf. destruct Hf as [_ F2].
    now inversion F2. }
  rewrite (intermediate_vector_set_unfold _ q _ n),
          (intermediate_vector_set_unfold (tr1 ++ tr2) q _ n) by assumption.
  assert (Es : squared_weight_sum (s1 ++ 0 :: s2) = squared_weight_sum (s1 ++ s2)).
  { unfold squared_weight_sum. rewrite !map_app, !np_sum_app. cbn [map].
    unfold np_sum at 2. cbn [fold_right]. fold (np_sum (map (fun w => w ^ 2) s2)). ring. }
  rewrite Es. f_equal.
  unfold per_atom_results.
  rewrite !combine_app_eq by assumption. cbn [combine]. rewrite !map_app. cbn [map fst snd].
  rewrite <- (reduce_perm np_add np_add_comm np_add_assoc _ _ (Permutation_middle _ _ _)).
  pose proof (per_atom_results_shape (tr1 ++ tr2) q (s1 ++ s2) n Hn Hf') as Hs.
  unfold per_atom_results in Hs.
  rewrite combine_app_eq, map_app in Hs by assumption.
  pose proof (min_length_combine _ _ Hp) as Hc.
  rewrite combine_app_eq in Hc by assumption.
  destruct (map (fun p => Spec.per_atom q (fst p) (snd p)) (combine tr1 s1)
            ++ map (fun p => Spec.per_atom q (fst p) (snd p)) (combine tr2 s2))
    as [|r0 rs] eqn:E.
  { exfalso. apply Hc. apply app_eq_nil in E. destruct E as [E1 E2].
    apply map_eq_nil in E1. apply map_eq_nil in E2. now rewrite E1, E2. }
  cbn [functools_reduce fold_left]. do 2 f_equal.
  rewrite per_atom_zero_weight by (apply length_ge_1_nonempty; lia).
  rewrite Ha. apply np_add_zero_l.
  now inversion Hs.
Qed.

Lemma zero_weight_atom_ignored_witness :
  let a1 := [(0, 0, 0); (1, 0, 0)] in
  let a2 := [(5, 0, 0); (7, 0, 0)] in
  let a3 := [(0, 1, 0); (0, 2, 0)] in
  intermediate_vector_set [a1; a2; a3] [(1, 0, 0)] [1; 0; 3]
  = intermediate_vector_set [a1; a3] [(1, 0, 0)] [1; 3].
Proof.
  intros a1 a2 a3.
  apply (zero_weight_atom_ignored [a1] [a3] a2 [1] [3] [(1, 0, 0)] 2);
    [reflexivity | repeat constructor | lia | simpl; lia | simpl; lia].
Defined.

(** ** Bounds on the modulus *)

Lemma Cnorm2_mul (u v : C) : Cnorm2 (Cmul u v) = Cnorm2 u * Cnorm2 v.
Proof. unfold Cnorm2, Cmul; simpl. ring. Qed.

Lemma Cnorm2_conj (u : C) : Cnorm2 (Cconj u) = Cnorm2 u.
Proof. unfold Cnorm2, Cconj; simpl. ring. Qed.

Lemma Cnorm2_real (x : R) : Cnorm2 (RtoC x) = x * x.
Proof. unfold Cnorm2, RtoC; simpl. ring. Qed.

Lemma Cnorm2_amplitude (q r : vec3) : Cnorm2 (Spec.amplitude_at q r) = 1.
Proof.
  unfold Cnorm2, Spec.amplitude_at; simpl.
  generalize (sin2_cos2 (dot3 q r)). unfold Rsqr. lra.
Qed.

Lemma Cnorm2_nonneg (u : C) : 0 <= Cnorm2 u.
Proof. unfold Cnorm2. nra. Qed.

(** The triangle inequality, on squared moduli. *)
Lemma Cnorm2_add_bound (u v : C) (M b : R) :
  0 <= M -> 0 <= b -> Cnorm2 u <= M * M -> Cnorm2 v <= b * b ->
  Cnorm2 (Cadd u v) <= (M + b) * (M + b).
Proof.
  destruct u as [X Y], v as [x y]. unfold Cnorm2, Cadd; simpl.
  intros HM Hb Hu Hv.
  assert (H1 : (X * x + Y * y) * (X * x + Y * y)
               <= (X * X + Y * Y) * (x * x + y * y)).
  { pose proof (Rle_0_sqr (X * y - Y * x)) as H0. unfold Rsqr in H0. nra. }
  assert (H2 : (X * X + Y * Y) * (x * x + y * y) <= (M * M) * (b * b))
    by (apply Rmult_le_compat; nra).
  assert (H3 : X * x + Y * y <= M * b).
  { destruct (Rle_dec (X * x + Y * y) (M * b)) as [|N]; [assumption|].
    exfalso. apply Rnot_le_lt in N.
    assert (0 <= M * b) by nra. nra. }
  nra.
Qed.

Lemma Cnorm2_sum_bound {A : Type} (f : A -> C) (g : A -> R) (l : list A) :
  (forall x, In x l -> 0 <= g x /\ Cnorm2 (f x) <= g x * g x) ->
  0 <= np_sum (map g l)
  /\ Cnorm2 (Csum (map f l)) <= np_sum (map g l) * np_sum (map g l).
Proof.
  induction l as [|a l IH]; intros H.
  - unfold np_sum, Cnorm2; simpl. lra.
  - destruct IH as [P B]; [intros; apply H; now right|].
    destruct (H a (or_introl eq_refl)) as [Pa Ba].
    cbn [map Csum fold_right np_sum].
    fold (Csum (map f l)). fold (np_sum (map g l)).
    split; [lra|]. now apply Cnorm2_add_bound.
Qed.

Lemma np_sum_ones {A : Type} (l : list A) : np_sum (map (fun _ => 1) l) = INR (length l).
Proof.
  unfold np_sum. induction l as [|a l IH]; [reflexivity|].
  cbn [map fold_right length]. rewrite IH, S_INR. ring.
Qed.

Lemma per_wavevector_entry_bound (qi : vec3) (atomic_tr : list vec3) (w : R) (k : nat) :
  (k < length atomic_tr)%nat ->
  Cnorm2 (nth k (Spec.per_wavevector (Spec.amplitudes qi atomic_tr) w) C0)
  <= w ^ 2 * w ^ 2.
Proof.
  intros Hk.
  assert (Hl : length (Spec.amplitudes qi atomic_tr) = length atomic_tr)
    by (unfold Spec.amplitudes; apply length_map).
  rewrite per_wavevector_nth by (rewrite Hl; exact Hk).
  rewrite autocorr_nonneg by (rewrite Hl; apply Nat.lt_le_incl; exact Hk).
  rewrite Hl.
  destruct (Cnorm2_sum_bound
              (fun t => Cmul (nth t (Spec.amplitudes qi atomic_tr) C0)
                             (Cconj (nth (t - k) (Spec.amplitudes qi atomic_tr) C0)))
              (fun _ => 1) (seq k (length atomic_tr - k))) as [_ B].
  { intros t Ht. apply in_seq in Ht. split; [lra|].
    unfold Spec.amplitudes. unfold vec3 in *.
    rewrite !(nth_map_in _ _ _ C0 (0, 0, 0)) by lia.
    rewrite Cnorm2_mul, Cnorm2_conj, !Cnorm2_amplitude. lra. }
  rewrite np_sum_ones, length_seq, INR_IZR_INZ, Nat2Z.inj_sub in B by lia.
  rewrite !Cnorm2_mul, !Cnorm2_real.
  set (S := Cnorm2 _) in *.
  set (m := IZR (Z.of_nat (length atomic_tr) - Z.of_nat k)) in *.
  assert (Hm : 0 < m) by (apply IZR_lt; lia).
  assert (HS : 1 / m * (1 / m) * S <= 1).
  { apply Rle_trans with (1 / m * (1 / m) * (m * m)).
    - apply Rmult_le_compat_l; [|assumption].
      assert (0 < 1 / m) by (apply Rdiv_lt_0_compat; lra). nra.
    - right. field. lra. }
  assert (0 <= w ^ 2 * w ^ 2) by nra.
  replace (w ^ 2 * w ^ 2 * (1 / m * (1 / m) * S))
    with ((w ^ 2 * w ^ 2) * (1 / m * (1 / m) * S)) by ring.
  assert (0 <= 1 / m * (1 / m) * S).
  { assert (0 <= S) by apply Cnorm2_nonneg.
    assert (0 < 1 / m) by (apply Rdiv_lt_0_compat; lra). nra. }
  nra.
Qed.

(** The modulus of a per-atom entry is at most the squared weight. *)
Lemma per_atom_entry_bound (q atomic_tr : list vec3) (w : R) (i k : nat) :
  (i < length q)%nat -> (k < length atomic_tr)%nat ->
  Cnorm2 (nth k (nth i (Spec.per_atom q atomic_tr w) []) C0) <= w ^ 2 * w ^ 2.
Proof.
  intros Hi Hk. unfold Spec.per_atom.
  rewrite (nth_map_in _ _ _ [] (0, 0, 0)) by assumption.
  now apply per_wavevector_entry_bound.
Qed.

Lemma paired_weights_bound {A : Type} (tr : list A) (s : list R) :
  0 <= np_sum (map (fun p => snd p ^ 2) (combine tr s))
  /\ np_sum (map (fun p => snd p ^ 2) (combine tr s)) <= squared_weight_sum s.
Proof.
  unfold squared_weight_sum, np_sum.
  revert s; induction tr as [|a tr IH]; intros s.
  - simpl. split; [lra|].
    induction s as [|w s IHs]; simpl; [lra|]. nra.
  - destruct s as [|w s]; [simpl; lra|].
    specialize (IH s). cbn [combine map fold_right snd]. nra.
Qed.

Lemma divide_bound (z : C) (P D : R) :
  0 <= P -> P <= D -> Cnorm2 z <= P * P ->
  match np_true_divide z D with
  | Fin x => Cnorm2 x <= 1
  | NonFinite => D = 0
  end.
Proof.
  intros HP HD Hz. unfold np_true_divide.
  destruct (Req_dec_T D 0) as [E|E]; [assumption|].
  assert (0 < D) by lra.
  unfold Cnorm2, Cdiv_real in *; simpl.
  assert (Hz' : fst z * fst z + snd z * snd z <= D * D) by nra.
  replace (fst z / D * (fst z / D) + snd z / D * (snd z / D))
    with ((fst z * fst z + snd z * snd z) / (D * D)) by (field; lra).
  apply Rle_trans with ((D * D) / (D * D)).
  - unfold Rdiv. apply Rmult_le_compat_r; [|assumption].
    apply Rlt_le, Rinv_0_lt_compat. nra.
  - right. field. lra.
Qed.

(** X10.  The intensities are bounded, in exact arithmetic.  Every entry
    of a per-atom array has modulus at most the squared weight.  Every
    entry of the array of [intermediate_vector_set] is non-finite if the
    squared weights sum to zero, and otherwise finite with modulus at most
    1.  (Moduli are compared by their squares.) *)
Theorem intensity_bounded
  (tr : list (list vec3)) (q : list vec3) (s_inc : list R) (n : nat) :
  (1 <= n)%nat -> (1 <= length q)%nat ->
  (forall (atomic_tr : list vec3) (w : R) (i k : nat),
      length atomic_tr = n -> (i < length q)%nat -> (k < n)%nat ->
      exists r, serial_worker q atomic_tr w = Returns r
                /\ Cnorm2 (nth k (nth i r []) C0) <= w ^ 2 * w ^ 2)
  /\ (frames tr n -> (1 <= Nat.min (length tr) (length s_inc))%nat ->
      exists m, intermediate_vector_set tr q s_inc = Returns m
                /\ forall i t, (i < length q)%nat -> (t < n)%nat ->
                     (squared_weight_sum s_inc = 0 ->
                      nth t (nth i m []) NonFinite = NonFinite)
                     /\ (squared_weight_sum s_inc <> 0 ->
                         exists z, nth t (nth i m []) NonFinite = Fin z
                                   /\ Cnorm2 z <= 1)).
Proof.
  intros Hn Hq. pose proof (length_ge_1_nonempty q Hq) as Hq'. split.
  - intros atomic_tr w i k Ha Hi Hk.
    exists (Spec.per_atom q atomic_tr w). split.
    + apply serial_worker_returns; [assumption|].
      apply length_ge_1_nonempty; lia.
    + apply per_atom_entry_bound; lia.
  - intros Hf Hp.
    destruct (intermediate_vector_set_returns tr q s_inc n) as [total [E [Sh Hnth]]];
      try assumption.
    { now apply min_length_combine. }
    eexists. split; [exact E|].
    intros i t Hi Ht.
    rewrite (divide_nth _ _ (length q) n) by assumption.
    rewrite Hnth by assumption.
    split.
    + intros D0. unfold np_true_divide.
      destruct (Req_dec_T (squared_weight_sum s_inc) 0) as [_|N];
        [reflexivity | contradiction].
    + intros Dn.
      destruct (paired_weights_bound tr s_inc) as [P0 PD].
      assert (B : Cnorm2 (Spec.atom_sum (per_atom_results tr q s_inc) i t)
                  <= np_sum (map (fun p => snd p ^ 2) (combine tr s_inc))
                     * np_sum (map (fun p => snd p ^ 2) (combine tr s_inc))).
      { unfold Spec.atom_sum, per_atom_results. rewrite map_map.
        apply (Cnorm2_sum_bound
                 (fun p => nth t (nth i (Spec.per_atom q (fst p) (snd p)) []) C0)
                 (fun p => snd p ^ 2)).
        intros [a w] Hin. simpl. split; [nra|].
        apply per_atom_entry_bound; [assumption|].
        apply in_combine_l in Hin.
        unfold frames in Hf. rewrite Forall_forall in Hf. rewrite (Hf a Hin).
        assumption. }
      pose proof (divide_bound _ _ _ P0 PD B) as H.
      destruct (np_true_divide _ _) as [z|]; [|contradiction].
      exists z. split; [reflexivity | exact H].
Qed.

Lemma intensity_bounded_witness :
  let tr := [[(0, 0, 0); (1, 0, 0)]; [(0, 1, 0); (0, 2, 0)]] in
  let q := [(1, 0, 0); (0, 3, 0)] in
  (exists r, serial_worker q [(0, 1, 0); (0, 2, 0)] 2 = Returns r
             /\ Cnorm2 (nth 1 (nth 1 r []) C0) <= 2 ^ 2 * 2 ^ 2)
  /\ (exists m, intermediate_vector_set tr q [1; 2] = Returns m
                /\ forall i t, (i < 2)%nat -> (t < 2)%nat ->
                     exists z, nth t (nth i m []) NonFinite = Fin z /\ Cnorm2 z <= 1)
  /\ (exists m, intermediate_vector_set tr q [0; 0] = Returns m
                /\ forall i t, (i < 2)%nat -> (t < 2)%nat ->
                     nth t (nth i m []) NonFinite = NonFinite).
Proof.
  intros tr q.
  destruct (intensity_bounded tr q [1; 2] 2) as [Hatom Hall]; [lia | simpl; lia |].
  destruct (intensity_bounded tr q [0; 0] 2) as [_ Hzero]; [lia | simpl; lia |].
  split; [|split].
  - apply Hatom; [reflexivity | simpl; lia | lia].
  - destruct Hall as [m [E H]]; [repeat constructor | simpl; lia |].
    exists m. split; [exact E|]. intros i t Hi Ht.
    apply (H i t Hi Ht). unfold squared_weight_sum; simpl; lra.
  - destruct Hzero as [m [E H]]; [repeat constructor | simpl; lia |].
    exists m. split; [exact E|]. intros i t Hi Ht.
    apply (H i t Hi Ht). unfold squared_weight_sum; simpl; lra.
Defined.

(** ** The half that the slice drops *)

Lemma autocorr_neg (a : list C) (k : Z) :
  Spec.autocorr a (- k) = Cconj (Spec.autocorr a k).
Proof.
  rewrite <- (correlate_reindex a k), Cconj_sum, map_map.
  unfold Spec.autocorr. f_equal. apply map_ext. intros t. cbv zeta.
  replace (Z.of_nat t - - k)%Z with (Z.of_nat t + k)%Z by lia.
  unfold pad_get.
  destruct ((0 <=? Z.of_nat t + k)%Z && (Z.of_nat t + k <? Z.of_nat (length a))%Z)%bool.
  - unfold Cconj, Cmul; simpl. f_equal; ring.
  - unfold Cconj, Cmul, C0; simpl. f_equal; ring.
Qed.

(** X11.  The full autocorrelation that [np.correlate(x, x, "full")]
    returns for a non-empty sequence has [2n - 1] entries and is Hermitian
    about its center: the entry [k] places before the center is the
    conjugate of the entry [k] places after it.  The half that line 63
    cuts off is thus the mirror image of the half it keeps. *)
Theorem full_autocorrelation_hermitian (x : list C) :
  (1 <= length x)%nat ->
  exists c,
    np_correlate_full x x = Returns c
    /\ length c = (2 * length x - 1)%nat
    /\ forall k, (k < length x)%nat ->
         nth (length x - 1 - k) c C0 = Cconj (nth (length x - 1 + k) c C0).
Proof.
  intros Hx. apply length_ge_1_nonempty in Hx.
  assert (Hn : (1 <= length x)%nat) by (destruct x; [congruence | simpl; lia]).
  eexists. split; [now apply np_correlate_full_auto|]. split.
  - now rewrite length_map, lags_length.
  - intros k Hk.
    rewrite !(nth_map_in _ _ _ C0 0%Z) by (rewrite lags_length; lia).
    rewrite !lags_nth by lia.
    replace (Z.of_nat (length x - 1 - k) - (Z.of_nat (length x) - 1))%Z
      with (- Z.of_nat k)%Z by lia.
    replace (Z.of_nat (length x - 1 + k) - (Z.of_nat (length x) - 1))%Z
      with (Z.of_nat k) by lia.
    apply autocorr_neg.
Qed.

Lemma full_autocorrelation_hermitian_witness :
  let x := [(1, 0); (0, 1); (-1, 0)] in
  exists c,
    np_correlate_full x x = Returns c
    /\ length c = 5%nat
    /\ forall k, (k < 3)%nat -> nth (2 - k) c C0 = Cconj (nth (2 + k) c C0).
Proof.
  intros x. apply (full_autocorrelation_hermitian x). simpl; lia.
Defined.

(** ** Lag 0 after averaging *)

Lemma intermediate_vector_set_lag0
  (tr : list (list vec3)) (q : list vec3) (s_inc : list R) (n : nat) :
  q <> [] -> (1 <= n)%nat -> frames tr n -> (1 <= length tr)%nat ->
  length s_inc = length tr -> 0 < squared_weight_sum s_inc ->
  exists m, intermediate_vector_set tr q s_inc = Returns m
            /\ shape m (length q) n
            /\ Forall (fun row => nth 0 row NonFinite = Fin C1) m.
Proof.
  intros Hq Hn Hf Htr Hs Hpos.
  destruct (intermediate_vector_set_returns tr q s_inc n) as [total [E [Sh Hnth]]];
    try assumption.
  { apply combine_nonempty; lia. }
  eexists. split; [exact E|].
  pose proof (divide_shape total (squared_weight_sum s_inc) _ _ Sh) as Sh'.
  split; [exact Sh'|].
  apply Forall_forall. intros row Hrow.
  destruct (In_nth _ _ [] Hrow) as [i [Hi <-]].
  destruct Sh' as [L' _]. rewrite L' in Hi.
  rewrite (divide_nth _ _ (length q) n) by (try assumption; lia).
  rewrite Hnth by (try assumption; lia).
  rewrite (atom_sum_lag0 tr q s_inc n) by assumption.
  now apply divide_by_itself.
Qed.

Lemma fold_fp_add_head (rs : list (list (fp C))) (r : list (fp C)) (x : R) :
  nth 0 r NonFinite = Fin (RtoC x) ->
  Forall (fun row => nth 0 row NonFinite = Fin C1) rs ->
  nth 0 (fold_left (zip_with fp_add) rs r) NonFinite = Fin (RtoC (x + INR (length rs))).
Proof.
  intros Hr Hrs. revert r x Hr.
  induction Hrs as [|y rs Hy _ IH]; intros r x Hr.
  - simpl. now rewrite Rplus_0_r.
  - cbn [fold_left length]. rewrite S_INR.
    rewrite (IH _ (x + 1)).
    + do 2 f_equal. ring.
    + destruct r as [|c r]; [discriminate|]. destruct y as [|d y]; [discriminate|].
      simpl in *. rewrite Hr, Hy. unfold fp_add, Cadd, RtoC, C1; simpl.
      do 2 f_equal. ring.
Qed.

Lemma np_average_lag0 (m : list (list (fp C))) :
  m <> [] -> Forall (fun row => nth 0 row NonFinite = Fin C1) m ->
  exists series, np_average m 0 = Returns series /\ nth 0 series NonFinite = Fin C1.
Proof.
  intros Hm F. destruct m as [|r rs]; [congruence|].
  inversion F as [|? ? Hr Hrs]; subst.
  unfold np_average. eexists. split; [reflexivity|].
  pose proof (fold_fp_add_head rs r 1 Hr Hrs) as H.
  destruct (fold_left (zip_with fp_add) rs r) as [|c cs]; [discriminate|].
  simpl in H. cbn [map nth length]. rewrite H.
  unfold fp_div_count. f_equal.
  assert (0 <= INR (length rs)) by apply pos_INR.
  unfold Cdiv_real, RtoC, C1. cbn [fst snd]. rewrite S_INR.
  f_equal; field; lra.
Qed.

Lemma Forall2_Forall_r {A B : Type} (P : B -> Prop) (l : list A) (m : list B) :
  Forall2 (fun _ y => P y) l m -> Forall P m.
Proof. induction 1; constructor; assumption. Qed.

(** X12.  The normalisation survives the averaging, in exact arithmetic:
    with as many weights as atoms and a positive sum of squared weights,
    the series that [intermediate] returns under the default policy is 1 at
    lag 0, and so is every row of the table of [intermediate_spherical] for
    a sampler of non-empty sets. *)
Theorem averaged_lag0
  (sample : R -> list vec3)
  (tr : list (list vec3)) (q : list vec3) (q_mod : list R) (s_inc : list R) (n : nat) :
  (1 <= length tr)%nat -> length s_inc = length tr -> frames tr n -> (1 <= n)%nat ->
  0 < squared_weight_sum s_inc ->
  ((1 <= length q)%nat ->
   exists series,
     intermediate tr q s_inc default_averaging = Returns series
     /\ nth 0 series NonFinite = Fin C1)
  /\ ((forall m, In m q_mod -> (1 <= length (sample m))%nat) ->
      exists rows,
        intermediate_spherical sample tr q_mod s_inc = Returns rows
        /\ Forall (fun row => nth 0 row NonFinite = Fin 1) rows).
Proof.
  intros Htr Hs Hf Hn Hpos.
  assert (A : forall q', (1 <= length q')%nat ->
            exists series,
              intermediate tr q' s_inc default_averaging = Returns series
              /\ nth 0 series NonFinite = Fin C1).
  { intros q' Hq'. apply length_ge_1_nonempty in Hq'.
    destruct (intermediate_vector_set_lag0 tr q' s_inc n) as [m [E [Sh F]]];
      try assumption.
    unfold intermediate. rewrite E.
    cbn [bind default_averaging av_fun av_args av_kwargs].
    apply np_average_lag0; [|assumption].
    destruct Sh as [L _]. destruct m; [|discriminate].
    destruct q'; [congruence | discriminate]. }
  split; [apply A|].
  intros Hsample. unfold intermediate_spherical, sphere_average.
  destruct (mapM_Forall2
              (fun q_set =>
                 s <- intermediate tr q_set s_inc default_averaging ;;
                 Returns (map np_real s))
              (fun _ row => nth 0 row NonFinite = Fin 1)
              (map sample q_mod)) as [rows [E F]].
  { intros q_set Hin. apply in_map_iff in Hin. destruct Hin as [m [<- Hm]].
    destruct (A (sample m) (Hsample m Hm)) as [series [Es H0]].
    exists (map np_real series). split; [now rewrite Es|].
    destruct series as [|c cs]; [discriminate|].
    simpl in *. now rewrite H0. }
  exists rows. split; [exact E|]. now apply Forall2_Forall_r in F.
Qed.

Lemma averaged_lag0_witness :
  let sample := fun m : R => [(m, 0, 0); (0, m, 0)] in
  let tr := [[(0, 0, 0); (1, 0, 0)]; [(0, 1, 0); (0, 2, 0)]] in
  (exists series,
      intermediate tr [(1, 0, 0); (0, 2, 0)] [1; 3] default_averaging = Returns series
      /\ nth 0 series NonFinite = Fin C1)
  /\ (exists rows,
        intermediate_spherical sample tr [2; 1] [1; 3] = Returns rows
        /\ Forall (fun row => nth 0 row NonFinite = Fin 1) rows).
Proof.
  intros sample tr.
  destruct (averaged_lag0 sample tr [(1, 0, 0); (0, 2, 0)] [2; 1] [1; 3] 2) as [H1 H2];
    [simpl; lia | reflexivity | repeat constructor | lia
     | unfold squared_weight_sum; simpl; lra |].
  split.
  - apply H1. simpl; lia.
  - apply H2. intros; simpl; lia.
Defined.

(** ** Exceptions through the wrappers *)

Lemma intermediate_raises {P K T : Type}
  (tr : list (list vec3)) (q : list vec3) (s_inc : list R)
  (averaging : averaging_policy P K T) (e : exn) :
  intermediate_vector_set tr q s_inc = Raises e ->
  intermediate tr q s_inc averaging = Raises e.
Proof. intros H. unfold intermediate. now rewrite H. Qed.

Lemma mapM_raises_some {A B : Type} (f : A -> outcome B) (e : exn) (l : list A) :
  (forall x, In x l -> (exists y, f x = Returns y) \/ f x = Raises e) ->
  (exists x, In x l /\ f x = Raises e) ->
  mapM f l = Raises e.
Proof.
  induction l as [|a l IH]; intros Hall [x [Hin Hx]]; [contradiction|].
  simpl. destruct (Hall a (or_introl eq_refl)) as [[y Ey]|Ea].
  - rewrite Ey. simpl. rewrite IH; [reflexivity | |].
    + intros; apply Hall; now right.
    + destruct Hin as [<-|Hin]; [congruence|]. now exists x.
  - now rewrite Ea.
Qed.

(** X13.  The edges of [intermediate_spherical], for a trajectory array of
    [n] frames per atom.  No magnitude gives the empty table, whatever the
    other arguments.  With a magnitude: no (atom, weight) pair raises
    [TypeError]; a magnitude whose wavevector set is empty raises
    [IndexError] (the trajectory having a frame); and no frame raises
    [ValueError] (the sets being non-empty).  No row is returned beside an
    exception. *)
Theorem intermediate_spherical_edges
  (sample : R -> list vec3)
  (tr : list (list vec3)) (q_mod : list R) (s_inc : list R) (n : nat) :
  frames tr n ->
  let pairs := Nat.min (length tr) (length s_inc) in
  intermediate_spherical sample tr [] s_inc = Returns []
  /\ ((1 <= length q_mod)%nat -> pairs = 0%nat ->
      intermediate_spherical sample tr q_mod s_inc = Raises TypeError)
  /\ ((1 <= pairs)%nat -> (1 <= n)%nat ->
      (exists m, In m q_mod /\ length (sample m) = 0%nat) ->
      intermediate_spherical sample tr q_mod s_inc = Raises IndexError)
  /\ ((1 <= length q_mod)%nat -> (1 <= pairs)%nat -> n = 0%nat ->
      (forall m, In m q_mod -> (1 <= length (sample m))%nat) ->
      intermediate_spherical sample tr q_mod s_inc = Raises ValueError).
Proof.
  intros Hf pairs. split; [reflexivity|]. split; [|split].
  - intros Hq Hp. unfold intermediate_spherical, sphere_average.
    apply mapM_raises_all.
    + destruct q_mod; [simpl in Hq; lia | discriminate].
    + intros q_set _.
      rewrite (intermediate_raises _ _ _ _ TypeError); [reflexivity|].
      apply intermediate_vector_set_no_pair.
      apply length_zero_iff_nil. now rewrite length_combine.
  - intros Hp Hn [m [Hm Hempty]]. unfold intermediate_spherical, sphere_average.
    pose proof (min_length_combine tr s_inc Hp) as Hc.
    apply mapM_raises_some.
    + intros q_set Hin. destruct q_set as [|q0 q'].
      * right. rewrite (intermediate_raises _ _ _ _ IndexError); [reflexivity|].
        now apply intermediate_vector_set_no_wavevector.
      * left.
        destruct (intermediate_default_returns tr (q0 :: q') s_inc n) as [series [Es _]];
          try assumption; try discriminate.
        rewrite Es. simpl. eexists. reflexivity.
    + exists (sample m). split; [now apply in_map|].
      apply length_zero_iff_nil in Hempty. rewrite Hempty.
      rewrite (intermediate_raises _ _ _ _ IndexError); [reflexivity|].
      now apply intermediate_vector_set_no_wavevector.
  - intros Hq Hp Hn Hsample. subst n. unfold intermediate_spherical, sphere_average.
    apply mapM_raises_all.
    + destruct q_mod; [simpl in Hq; lia | discriminate].
    + intros q_set Hin. apply in_map_iff in Hin. destruct Hin as [m [<- Hm]].
      rewrite (intermediate_raises _ _ _ _ ValueError); [reflexivity|].
      apply intermediate_vector_set_no_frame; try assumption.
      * now apply min_length_combine.
      * apply length_ge_1_nonempty. now apply Hsample.
Qed.

Lemma intermediate_spherical_edges_witness :
  let full := fun m : R => [(m, 0, 0)] in
  let holed := fun m : R => if Req_dec_T m 2 then [] else [(m, 0, 0)] in
  intermediate_spherical full [] [1; 2] [1] = Raises TypeError
  /\ intermediate_spherical holed [[(0, 0, 0)]] [1; 2; 3] [1] = Raises IndexError
  /\ intermediate_spherical full [[]] [1; 2] [1] = Raises ValueError.
Proof.
  intros full holed. split; [|split].
  - apply (intermediate_spherical_edges full [] [1; 2] [1] 0);
      [constructor | simpl; lia | reflexivity].
  - apply (intermediate_spherical_edges holed [[(0, 0, 0)]] [1; 2; 3] [1] 1);
      [repeat constructor | simpl; lia | lia |].
    exists 2. split; [simpl; tauto|].
    unfold holed. destruct (Req_dec_T 2 2) as [_|N]; [reflexivity | congruence].
  - apply (intermediate_spherical_edges full [[]] [1; 2] [1] 0);
      [repeat constructor | simpl; lia | simpl; lia | reflexivity |].
    intros; simpl; lia.
Defined.

(** ** The order in which the workers finish *)

(** X14.  [pool.uimap] hands the per-atom arrays over in completion
    order.  For arrays of one shape, [functools.reduce(np.add, ...)] gives
    the same total for every order of arrival. *)
Theorem completion_order_irrelevant
  (rs rs' : list (list (list C))) (rows cols : nat) :
  Forall (fun r => shape r rows cols) rs -> Permutation rs rs' ->
  functools_reduce np_add rs' = functools_reduce np_add rs.
Proof.
  intros _ Hp. symmetry. now apply (reduce_perm np_add np_add_comm np_add_assoc).
Qed.

Lemma completion_order_irrelevant_witness :
  let a := [[(1, 0); (0, 1)]] in
  let b := [[(2, 0); (0, 3)]] in
  let c := [[(0, 5); (7, 0)]] in
  functools_reduce np_add [c; a; b] = functools_reduce np_add [a; b; c].
Proof.
  intros a b c.
  apply (completion_order_irrelevant [a; b; c] [c; a; b] 1 2).
  - repeat constructor.
  - apply Permutation_sym.
    apply (Permutation_cons_app [a; b] [] c). rewrite app_nil_r. apply Permutation_refl.
Defined.

(** ** Uniform motion *)

Lemma dot3_scale_r (q v : vec3) (k : R) : dot3 q (vec3_scale k v) = k * dot3 q v.
Proof.
  destruct q as [[q1 q2] q3], v as [[v1 v2] v3]. cbv [dot3 vec3_scale]. ring.
Qed.

Lemma amplitude_product (q r r' : vec3) :
  Cmul (Spec.amplitude_at q r) (Cconj (Spec.amplitude_at q r'))
  = (cos (dot3 q r - dot3 q r'), - sin (dot3 q r - dot3 q r')).
Proof.
  unfold Spec.amplitude_at, Cmul, Cconj; simpl.
  rewrite cos_minus, sin_minus. f_equal; ring.
Qed.

Lemma Csum_const {A : Type} (f : A -> C) (c : C) (l : list A) :
  (forall x, In x l -> f x = c) ->
  Csum (map f l) = Cmul (RtoC (INR (length l))) c.
Proof.
  induction l as [|a l IH]; intros H.
  - simpl. unfold Cmul, RtoC, C0; simpl. f_equal; ring.
  - cbn [map Csum fold_right length]. fold (Csum (map f l)).
    rewrite H by now left. rewrite IH by (intros; apply H; now right).
    rewrite S_INR. unfold Cmul, Cadd, RtoC; simpl. f_equal; ring.
Qed.

Lemma uniform_motion_nth (r0 v : vec3) (n t : nat) :
  (t < n)%nat ->
  nth t (uniform_motion r0 v n) (0, 0, 0) = vec3_add r0 (vec3_scale (INR t) v).
Proof. intros H. unfold uniform_motion. now rewrite nth_map_seq. Qed.

Lemma uniform_motion_row (qi r0 v : vec3) (n k : nat) (w : R) :
  (k < n)%nat ->
  nth k (Spec.per_wavevector (Spec.amplitudes qi (uniform_motion r0 v n)) w) C0
  = Cmul (RtoC (w ^ 2)) (cos (INR k * dot3 qi v), - sin (INR k * dot3 qi v)).
Proof.
  intros Hk.
  assert (Hlen : length (uniform_motion r0 v n) = n)
    by (unfold uniform_motion; now rewrite length_map, length_seq).
  assert (Hl : length (Spec.amplitudes qi (uniform_motion r0 v n)) = n)
    by (unfold Spec.amplitudes; now rewrite length_map).
  rewrite per_wavevector_nth by lia.
  rewrite autocorr_nonneg by lia. rewrite Hl.
  rewrite (Csum_const _ (cos (INR k * dot3 qi v), - sin (INR k * dot3 qi v))).
  - rewrite length_seq, INR_IZR_INZ, Nat2Z.inj_sub by lia.
    assert (IZR (Z.of_nat n - Z.of_nat k) <> 0) by (apply not_0_IZR; lia).
    unfold Cmul, RtoC; simpl. f_equal; field; assumption.
  - intros t Ht. apply in_seq in Ht.
    unfold Spec.amplitudes. unfold vec3 in *.
    rewrite !(nth_map_in _ _ _ C0 (0, 0, 0)) by lia.
    rewrite !uniform_motion_nth by lia.
    rewrite amplitude_product, !dot3_add_r, !dot3_scale_r.
    replace (dot3 qi r0 + INR t * dot3 qi v - (dot3 qi r0 + INR (t - k) * dot3 qi v))
      with (INR k * dot3 qi v); [reflexivity|].
    rewrite minus_INR by lia. ring.
Qed.

(** X15.  An atom in uniform motion, [r(t) = r0 + t v] over [n >= 1]
    frames, gives at wavevector [q] and lag [k] the squared weight times
    the phase [exp(-i k q.v)]: the edge correction is exact, and the
    starting point does not matter. *)
Theorem uniform_motion_phase (q : list vec3) (r0 v : vec3) (n : nat) (w : R) :
  (1 <= length q)%nat -> (1 <= n)%nat ->
  exists r,
    serial_worker q (uniform_motion r0 v n) w = Returns r
    /\ forall i k, (i < length q)%nat -> (k < n)%nat ->
         nth k (nth i r []) C0
         = Cmul (RtoC (w ^ 2))
                (cos (INR k * dot3 (nth i q (0, 0, 0)) v),
                 - sin (INR k * dot3 (nth i q (0, 0, 0)) v)).
Proof.
  intros Hq Hn. apply length_ge_1_nonempty in Hq.
  assert (Hne : uniform_motion r0 v n <> []).
  { apply length_ge_1_nonempty. unfold uniform_motion.
    now rewrite length_map, length_seq. }
  exists (Spec.per_atom q (uniform_motion r0 v n) w).
  split; [now apply serial_worker_returns|].
  intros i k Hi Hk. unfold Spec.per_atom.
  rewrite (nth_map_in _ _ _ [] (0, 0, 0)) by assumption.
  now apply uniform_motion_row.
Qed.

Lemma uniform_motion_phase_witness :
  exists r,
    serial_worker [(1, 0, 0); (0, 2, 0)] (uniform_motion (3, 3, 3) (1, 1, 0) 4) 2
    = Returns r
    /\ forall i k, (i < 2)%nat -> (k < 4)%nat ->
         nth k (nth i r []) C0
         = Cmul (RtoC (2 ^ 2))
                (cos (INR k * dot3 (nth i [(1, 0, 0); (0, 2, 0)] (0, 0, 0)) (1, 1, 0)),
                 - sin (INR k * dot3 (nth i [(1, 0, 0); (0, 2, 0)] (0, 0, 0)) (1, 1, 0))).
Proof.
  apply (uniform_motion_phase [(1, 0, 0); (0, 2, 0)] (3, 3, 3) (1, 1, 0) 4 2); simpl; lia.
Defined.

(** ** Time reversal *)

Lemma Csum_rev (l : list C) : Csum (rev l) = Csum l.
Proof.
  induction l as [|a l IH]; [reflexivity|].
  cbn [rev]. rewrite Csum_app, IH. simpl.
  rewrite Cadd_0_r. apply Cadd_comm.
Qed.

Lemma rev_seq_0 (n : nat) : rev (seq 0 n) = map (fun s => (n - 1 - s)%nat) (seq 0 n).
Proof.
  apply (nth_ext _ _ O O).
  - now rewrite length_rev, length_map.
  - intros i Hi. rewrite length_rev, length_seq in Hi.
    rewrite rev_nth by now rewrite length_seq.
    rewrite length_seq, seq_nth by lia.
    rewrite nth_map_seq by assumption. lia.
Qed.

(** A sum over the frames may be run backwards. *)
Lemma Csum_backwards (f : nat -> C) (n : nat) :
  Csum (map f (seq 0 n)) = Csum (map (fun s => f (n - 1 - s)%nat) (seq 0 n)).
Proof.
  rewrite <- Csum_rev, <- map_rev, rev_seq_0, map_map. reflexivity.
Qed.

Lemma autocorr_rev (a : list C) (k : Z) :
  Spec.autocorr (rev a) k = Spec.autocorr a (- k).
Proof.
  unfold Spec.autocorr. rewrite length_rev.
  rewrite Csum_backwards. f_equal. apply map_ext_in.
  intros s Hs. apply in_seq in Hs. cbv zeta.
  replace (Z.of_nat s - - k)%Z with (Z.of_nat s + k)%Z by lia.
  replace (Z.of_nat (length a - 1 - s) - k)%Z
    with (Z.of_nat (length a) - 1 - (Z.of_nat s + k))%Z by lia.
  destruct ((0 <=? Z.of_nat s + k)%Z && (Z.of_nat s + k <? Z.of_nat (length a))%Z)%bool
    eqn:G.
  - apply andb_prop in G. destruct G as [G1 G2].
    apply Z.leb_le in G1. apply Z.ltb_lt in G2.
    replace ((0 <=? Z.of_nat (length a) - 1 - (Z.of_nat s + k))%Z
             && (Z.of_nat (length a) - 1 - (Z.of_nat s + k) <? Z.of_nat (length a))%Z)%bool
      with true by (symmetry; apply andb_true_intro; split;
                    [apply Z.leb_le | apply Z.ltb_lt]; lia).
    rewrite !rev_nth by lia.
    do 2 f_equal; [f_equal; lia|]. f_equal. lia.
  - replace ((0 <=? Z.of_nat (length a) - 1 - (Z.of_nat s + k))%Z
             && (Z.of_nat (length a) - 1 - (Z.of_nat s + k) <? Z.of_nat (length a))%Z)%bool
      with false; [reflexivity|].
    symmetry. apply Bool.andb_false_iff. apply Bool.andb_false_iff in G.
    destruct G as [G|G].
    + right. apply Z.leb_gt in G. apply Z.ltb_ge. lia.
    + left. apply Z.ltb_ge in G. apply Z.leb_gt. lia.
Qed.

Lemma per_wavevector_rev (a : list C) (w : R) :
  Spec.per_wavevector (rev a) w = map Cconj (Spec.per_wavevector a w).
Proof.
  unfold Spec.per_wavevector. rewrite length_rev, <- skipn_map, map_map.
  f_equal. apply map_ext. intros k. rewrite autocorr_rev, autocorr_neg.
  unfold Cconj, Cmul, RtoC; simpl. f_equal; ring.
Qed.

Lemma per_atom_rev (q atomic_tr : list vec3) (w : R) :
  Spec.per_atom q (rev atomic_tr) w = map (map Cconj) (Spec.per_atom q atomic_tr w).
Proof.
  unfold Spec.per_atom. rewrite map_map. apply map_ext. intros qi.
  rewrite <- per_wavevector_rev. f_equal.
  unfold Spec.amplitudes. apply map_rev.
Qed.

Lemma Cconj_involutive_array (m : list (list C)) : map (map Cconj) (map (map Cconj) m) = m.
Proof.
  rewrite map_map. rewrite <- (map_id m) at 2. apply map_ext. intros row.
  rewrite map_map. rewrite <- (map_id row) at 2. apply map_ext. intros [x y].
  unfold Cconj; simpl. f_equal. ring.
Qed.

(** X16.  Running an atom's trajectory backwards conjugates its per-atom
    array, entry by entry (and raises what the forward run raises); running
    it backwards with every wavevector reversed changes nothing. *)
Theorem time_reversal (q atomic_tr : list vec3) (w : R) :
  serial_worker q (rev atomic_tr) w
  = (r <- serial_worker q atomic_tr w ;; Returns (map (map Cconj) r))
  /\ serial_worker (map vec3_opp q) (rev atomic_tr) w = serial_worker q atomic_tr w.
Proof.
  destruct q as [|q0 q']; [split; reflexivity|].
  destruct atomic_tr as [|r0 rs]; [split; reflexivity|].
  assert (Hrev : rev (r0 :: rs) <> []).
  { intros E. apply (f_equal (@length vec3)) in E.
    rewrite length_rev in E. discriminate. }
  rewrite !serial_worker_returns by (try assumption; discriminate).
  cbn [bind]. split; f_equal.
  - apply per_atom_rev.
  - rewrite (per_atom_opp (q0 :: q')), per_atom_rev. apply Cconj_involutive_array.
Qed.

(** ** The range of the table *)

Lemma ensemble_entries_bounded
  (tr : list (list vec3)) (q : list vec3) (s_inc : list R) (n : nat) :
  q <> [] -> (1 <= n)%nat -> frames tr n ->
  (1 <= Nat.min (length tr) (length s_inc))%nat -> 0 < squared_weight_sum s_inc ->
  exists m,
    intermediate_vector_set tr q s_inc = Returns m
    /\ shape m (length q) n
    /\ Forall (fun row => forall t, (t < n)%nat ->
                 exists z, nth t row NonFinite = Fin z /\ Cnorm2 z <= 1 * 1) m.
Proof.
  intros Hq Hn Hf Hp Hpos.
  destruct (intermediate_vector_set_returns tr q s_inc n) as [total [E [Sh Hnth]]];
    try assumption.
  { now apply min_length_combine. }
  eexists. split; [exact E|].
  pose proof (divide_shape total (squared_weight_sum s_inc) _ _ Sh) as Sh'.
  split; [exact Sh'|].
  apply Forall_forall. intros row Hrow t Ht.
  destruct (In_nth _ _ [] Hrow) as [i [Hi <-]].
  destruct Sh' as [L' _]. rewrite L' in Hi.
  rewrite (divide_nth _ _ (length q) n) by assumption.
  rewrite Hnth by assumption.
  destruct (paired_weights_bound tr s_inc) as [P0 PD].
  assert (B : Cnorm2 (Spec.atom_sum (per_atom_results tr q s_inc) i t)
              <= np_sum (map (fun p => snd p ^ 2) (combine tr s_inc))
                 * np_sum (map (fun p => snd p ^ 2) (combine tr s_inc))).
  { unfold Spec.atom_sum, per_atom_results. rewrite map_map.
    apply (Cnorm2_sum_bound
             (fun p => nth t (nth i (Spec.per_atom q (fst p) (snd p)) []) C0)
             (fun p => snd p ^ 2)).
    intros [a w] Hin. simpl. split; [nra|].
    apply per_atom_entry_bound; [assumption|].
    apply in_combine_l in Hin.
    unfold frames in Hf. rewrite Forall_forall in Hf. rewrite (Hf a Hin). assumption. }
  pose proof (divide_bound _ _ _ P0 PD B) as H.
  destruct (np_true_divide _ _) as [z|]; [|lra].
  exists z. split; [reflexivity | lra].
Qed.

Lemma fold_fp_add_bound (rs : list (list (fp C))) (r : list (fp C)) (n : nat) (M : R) :
  0 <= M -> length r = n -> Forall (fun row => length row = n) rs ->
  (forall t, (t < n)%nat -> exists u, nth t r NonFinite = Fin u /\ Cnorm2 u <= M * M) ->
  Forall (fun row => forall t, (t < n)%nat ->
            exists z, nth t row NonFinite = Fin z /\ Cnorm2 z <= 1 * 1) rs ->
  forall t, (t < n)%nat ->
    exists v, nth t (fold_left (zip_with fp_add) rs r) NonFinite = Fin v
              /\ Cnorm2 v <= (M + INR (length rs)) * (M + INR (length rs)).
Proof.
  intros HM Hr Hlen Hacc Hrows. revert r M HM Hr Hacc Hlen.
  induction Hrows as [|y rs Hy _ IH]; intros r M HM Hr Hacc Hlen t Ht.
  - simpl. rewrite Rplus_0_r. now apply Hacc.
  - inversion Hlen as [|? ? Ly Lrs]; subst.
    cbn [fold_left length]. rewrite S_INR.
    replace (M + (INR (length rs) + 1)) with ((M + 1) + INR (length rs)) by ring.
    apply IH; try assumption; try lra.
    + rewrite zip_with_length, Ly. apply Nat.min_id.
    + intros t' Ht'.
      destruct (Hacc t' Ht') as [u [Eu Bu]]. destruct (Hy t') as [z [Ez Bz]]; [lia|].
      rewrite (zip_with_nth fp_add r y t' NonFinite NonFinite NonFinite) by lia.
      rewrite Eu, Ez. exists (Cadd u z). split; [reflexivity|].
      apply Cnorm2_add_bound; lra.
Qed.

Lemma np_average_bound (m : list (list (fp C))) (rows n : nat) :
  shape m rows n -> (1 <= rows)%nat ->
  Forall (fun row => forall t, (t < n)%nat ->
            exists z, nth t row NonFinite = Fin z /\ Cnorm2 z <= 1 * 1) m ->
  exists series,
    np_average m 0 = Returns series
    /\ length series = n
    /\ forall t, (t < n)%nat ->
         exists z, nth t series NonFinite = Fin z /\ Cnorm2 z <= 1.
Proof.
  intros [L F] Hrows B. destruct m as [|r rs]; [simpl in L; lia|].
  inversion F as [|? ? Lr Lrs]; subst. inversion B as [|? ? Br Brs]; subst.
  unfold np_average. eexists. split; [reflexivity|].
  assert (Hl : length (fold_left (zip_with fp_add) rs r) = length r)
    by now apply fold_zip_length.
  split; [now rewrite length_map|].
  intros t Ht.
  destruct (fold_fp_add_bound rs r (length r) 1) with (t := t) as [v [Ev Bv]];
    try assumption; try lra; try reflexivity.
  rewrite (nth_map_in _ _ _ NonFinite NonFinite) by lia.
  rewrite Ev. cbn [length fp_div_count].
  eexists. split; [reflexivity|].
  rewrite S_INR.
  assert (0 <= INR (length rs)) by apply pos_INR.
  set (Q := INR (length rs) + 1) in *.
  replace (1 + INR (length rs)) with Q in Bv by (unfold Q; ring).
  unfold Cnorm2, Cdiv_real in *; cbn [fst snd] in *.
  replace (fst v / Q * (fst v / Q) + snd v / Q * (snd v / Q))
    with ((fst v * fst v + snd v * snd v) / (Q * Q)) by (field; unfold Q; lra).
  apply Rle_trans with ((Q * Q) / (Q * Q)).
  - unfold Rdiv. apply Rmult_le_compat_r; [|assumption].
    apply Rlt_le, Rinv_0_lt_compat. unfold Q. nra.
  - right. field. unfold Q. lra.
Qed.

Lemma real_part_bound (z : C) : Cnorm2 z <= 1 -> -1 <= Re z <= 1.
Proof. unfold Cnorm2, Re. intros H. split; nra. Qed.

(** X17.  When the squared weights have a positive sum (and the sampler
    gives non-empty sets), every entry of the table of
    [intermediate_spherical] is a finite real number between -1 and 1, and
    every row has #frames entries. *)
Theorem table_within_unit
  (sample : R -> list vec3)
  (tr : list (list vec3)) (q_mod : list R) (s_inc : list R) (n : nat) :
  frames tr n -> (1 <= n)%nat -> (1 <= Nat.min (length tr) (length s_inc))%nat ->
  0 < squared_weight_sum s_inc ->
  (forall m, In m q_mod -> (1 <= length (sample m))%nat) ->
  exists rows,
    intermediate_spherical sample tr q_mod s_inc = Returns rows
    /\ Forall (fun row =>
                 length row = n
                 /\ Forall (fun c => exists x, c = Fin x /\ -1 <= x <= 1) row)
              rows.
Proof.
  intros Hf Hn Hp Hpos Hsample. unfold intermediate_spherical, sphere_average.
  destruct (mapM_Forall2
              (fun q_set =>
                 s <- intermediate tr q_set s_inc default_averaging ;;
                 Returns (map np_real s))
              (fun _ row =>
                 length row = n
                 /\ Forall (fun c => exists x, c = Fin x /\ -1 <= x <= 1) row)
              (map sample q_mod)) as [rows [E F]].
  { intros q_set Hin. apply in_map_iff in Hin. destruct Hin as [m [<- Hm]].
    pose proof (Hsample m Hm) as Hq.
    destruct (ensemble_entries_bounded tr (sample m) s_inc n) as [a [Ea [Sh B]]];
      try assumption.
    { now apply length_ge_1_nonempty. }
    destruct (np_average_bound a (length (sample m)) n Sh Hq B) as [series [Es [Ls Bs]]].
    exists (map np_real series). split.
    - unfold intermediate. rewrite Ea.
      cbn [bind default_averaging av_fun av_args av_kwargs]. now rewrite Es.
    - split; [now rewrite length_map|].
      apply Forall_forall. intros c Hc. apply in_map_iff in Hc.
      destruct Hc as [x [<- Hx]].
      destruct (In_nth _ _ NonFinite Hx) as [t [Ht <-]].
      rewrite Ls in Ht. destruct (Bs t Ht) as [z [Ez Bz]].
      rewrite Ez. exists (Re z). split; [reflexivity|]. now apply real_part_bound. }
  exists rows. split; [exact E|]. now apply Forall2_Forall_r in F.
Qed.

Lemma table_within_unit_witness :
  let sample := fun m : R => [(m, 0, 0); (0, m, 0)] in
  let tr := [[(0, 0, 0); (1, 0, 0)]; [(0, 1, 0); (0, 2, 0)]] in
  exists rows,
    intermediate_spherical sample tr [2; 1] [1; 3] = Returns rows
    /\ Forall (fun row =>
                 length row = 2%nat
                 /\ Forall (fun c => exists x, c = Fin x /\ -1 <= x <= 1) row)
              rows.
Proof.
  intros sample tr.
  apply (table_within_unit sample tr [2; 1] [1; 3] 2);
    [repeat constructor | lia | simpl; lia
     | unfold squared_weight_sum; simpl; lra | intros; simpl; lia].
Defined.
